(** * tokoro: a shallow embedding of the scheduler core (include/tokoro.h)

    Times are the values returned by a clock (a [double] in the sources);
    they are modelled as integers, which keeps their order and their
    addition.  Root ids ([uint64_t]) are [N], cursors of the time queue are
    [nat]. *)

From Stdlib Require Import ZArith Lia Sorting.Sorted Permutation.
From stdpp Require Import base list gmap.

Set Warnings "-register-all".

(* ------------------------------------------------------------------ *)
(** ** Outcomes: success, failed [assert], undefined behaviour, fuel     *)
(* ------------------------------------------------------------------ *)

Inductive Fault : Type :=
| AssertFail   (* an [assert] of the sources fires *)
| Undefined    (* the C++ code has undefined behaviour here *)
| OutOfFuel.   (* the model ran out of loop iterations *)

Inductive Res (A : Type) : Type :=
| Ok (a : A)
| Err (f : Fault).
Arguments Ok {A} a.
Arguments Err {A} f.

Global Instance Res_ret : MRet Res := fun A a => Ok a.
Global Instance Res_bind : MBind Res :=
  fun A B k m => match m with Ok a => k a | Err f => Err f end.

Definition assert_ (b : bool) : Res unit := if b then Ok tt else Err AssertFail.

(* ------------------------------------------------------------------ *)
(** ** The time queue                                                   *)
(* ------------------------------------------------------------------ *)

Module TQ.
Section TimeQueue.
Context {W : Type}.

(** Modelled from the spec: [internal::TimeQueue<T>] (timequeue.h, not
    among the sources).  Spec 4.1: an ordered multiset of
    [(deadline, waiter)] with stable cursors, ties in insertion order;
    [SetupUpdate] snapshots [now]; [CheckUpdate]/[Pop] pop the least
    deadline iff it is [<= now]; a deadline of 0 is "ready at the start of
    the next drain of this queue", so zero-deadline entries wait in
    [tq_next] until the next [SetupUpdate] and join the ordered part there
    with deadline 0. *)
Record TimeQueue : Type := mkTimeQueue {
  tq_timed : list (Z * nat * W);   (* (deadline, cursor, waiter), ordered *)
  tq_next  : list (nat * W);       (* zero deadlines, due at the next drain *)
  tq_now   : Z;                    (* snapshot of the current drain *)
  tq_seq   : nat                   (* next fresh cursor *)
}.

Definition empty : TimeQueue := mkTimeQueue [] [] 0%Z 0.

(** Stable insertion: after every entry whose deadline is [<= t]. *)
Fixpoint insert_timed (t : Z) (c : nat) (v : W) (l : list (Z * nat * W))
  : list (Z * nat * W) :=
  match l with
  | [] => [(t, c, v)]
  | (t', c', v') :: l' =>
      if Z.leb t' t then (t', c', v') :: insert_timed t c v l'
      else (t, c, v) :: l
  end.

(** [AddTimed(time, value)]: returns the cursor of the new entry. *)
Definition AddTimed (t : Z) (v : W) (q : TimeQueue) : nat * TimeQueue :=
  let c := tq_seq q in
  if Z.eqb t 0 then
    (c, mkTimeQueue (tq_timed q) (tq_next q ++ [(c, v)]) (tq_now q) (S c))
  else
    (c, mkTimeQueue (insert_timed t c v (tq_timed q)) (tq_next q) (tq_now q) (S c)).

Definition merge_next (next : list (nat * W)) (timed : list (Z * nat * W)) :=
  fold_left (fun l '(c, v) => insert_timed 0%Z c v l) next timed.

Definition SetupUpdate (now : Z) (q : TimeQueue) : TimeQueue :=
  mkTimeQueue (merge_next (tq_next q) (tq_timed q)) [] now (tq_seq q).

Definition CheckUpdate (q : TimeQueue) : bool :=
  match tq_timed q with
  | (t, _, _) :: _ => Z.leb t (tq_now q)
  | [] => false
  end.

(** [Pop()]: the least entry (the caller has checked [CheckUpdate]). *)
Definition Pop (q : TimeQueue) : option ((Z * nat * W) * TimeQueue) :=
  match tq_timed q with
  | e :: l => Some (e, mkTimeQueue l (tq_next q) (tq_now q) (tq_seq q))
  | [] => None
  end.

(** [Remove(iterator)]. *)
Definition Remove (c : nat) (q : TimeQueue) : TimeQueue :=
  mkTimeQueue (List.filter (fun e => negb (Nat.eqb e.1.2 c)) (tq_timed q))
              (List.filter (fun e => negb (Nat.eqb e.1 c)) (tq_next q))
              (tq_now q) (tq_seq q).

Definition Clear (q : TimeQueue) : TimeQueue :=
  mkTimeQueue [] [] (tq_now q) (tq_seq q).

Definition Size (q : TimeQueue) : nat := length (tq_timed q) + length (tq_next q).

(** The pops of one drain with no other activity: the [while] loop of
    [SchedulerBP::Update] with a resume that leaves the queue alone. *)
Fixpoint drain_pops (fuel : nat) (q : TimeQueue) : list (Z * nat * W) :=
  match fuel with
  | 0 => []
  | S n =>
      if CheckUpdate q then
        match Pop q with
        | Some (e, q') => e :: drain_pops n q'
        | None => []
        end
      else []
  end.

(** Inserting waiters one after the other, outside of any drain. *)
Definition add_all (l : list (Z * W)) (q : TimeQueue) : TimeQueue :=
  fold_left (fun q '(t, v) => (AddTimed t v q).2) l q.

End TimeQueue.
Arguments TimeQueue : clear implicits.
End TQ.


(* ------------------------------------------------------------------ *)
(** ** Coroutine frames, wait records and the root entries            *)
(* ------------------------------------------------------------------ *)

(** The body of a root coroutine, up to its next suspension point:
    host code on a shared integer ([count] in the tests), [co_await] of a
    [WaitBP(delay, updateType, timeType)], [co_return], or an exception
    that escapes the body.  Bodies that await child coroutines, [All] /
    [Any], or call [Start], [Stop] or drop handles are not in [Prog]: the
    awaiters are modelled on their own below, and the queue side of any
    body by [QueueUpdate]. *)
Inductive Prog : Type :=
| Ret (v : Z)
| Throw (e : nat)
| Act (f : Z -> Z) (k : Prog)
| WaitP (delay : Z) (ph cl : nat) (k : Prog).

(** A [WaitBP] object: the queue it targets ([TypesToIndex]) and its
    [mExeIter]. *)
Record WaitRec : Type := mkWaitRec {
  wr_key  : nat;
  wr_iter : option nat
}.

(** What a suspended frame owns at its current suspension point: a wait
    record, a child awaited through [SingleCoroAwaiter], or the children
    of an [All] / [Any] awaiter.  Destroying the frame destroys all of it
    (RAII). *)
Inductive Susp : Type :=
| SNone
| SWait (r : WaitRec)
| SChild (s : Susp)
| SAll (cs : list Susp)
| SAny (cs : list Susp).

Fixpoint waits_of (s : Susp) : list WaitRec :=
  match s with
  | SNone => []
  | SWait r => [r]
  | SChild s => waits_of s
  | SAll cs | SAny cs => (fix go (cs : list Susp) : list WaitRec :=
                            match cs with [] => [] | c :: cs => waits_of c ++ go cs end) cs
  end.

(** Induction over suspension trees, with the children of [All] / [Any]. *)
Section SuspInd.
Variable P : Susp -> Prop.
Hypothesis HNone : P SNone.
Hypothesis HWait : forall r, P (SWait r).
Hypothesis HChild : forall s, P s -> P (SChild s).
Hypothesis HAll : forall cs, Forall P cs -> P (SAll cs).
Hypothesis HAny : forall cs, Forall P cs -> P (SAny cs).

Fixpoint Susp_ind' (s : Susp) : P s :=
  match s with
  | SNone => HNone
  | SWait r => HWait r
  | SChild s => HChild s (Susp_ind' s)
  | SAll cs => HAll cs ((fix go (cs : list Susp) : Forall P cs :=
                          match cs with
                          | [] => @List.Forall_nil _ P
                          | c :: cs => @List.Forall_cons _ P c cs (Susp_ind' c) (go cs)
                          end) cs)
  | SAny cs => HAny cs ((fix go (cs : list Susp) : Forall P cs :=
                          match cs with
                          | [] => @List.Forall_nil _ P
                          | c :: cs => @List.Forall_cons _ P c cs (Susp_ind' c) (go cs)
                          end) cs)
  end.
End SuspInd.

(** Modelled from the spec: the result slot of [internal::Promise<T>]
    (promise.h is not among the sources): an optional value and an
    optional captured exception. *)
Record Promise : Type := mkPromise {
  pr_value : option Z;
  pr_exc   : option nat
}.

Definition emptyPromise : Promise := mkPromise None None.

Inductive Taken : Type :=
| TValue (v : Z)
| TEmpty
| TThrow (e : nat).

(** Modelled from the spec: [Promise::GetReturnValue()], "a destructive
    read of the completion value" (4.3) and a one-shot move whose stored
    exception is re-thrown exactly once (I7). *)
Definition GetReturnValue (p : Promise) : Taken * Promise :=
  match pr_exc p with
  | Some e => (TThrow e, mkPromise (pr_value p) None)
  | None =>
      match pr_value p with
      | Some v => (TValue v, mkPromise None None)
      | None => (TEmpty, p)
      end
  end.

(** A coroutine frame: the code to run when it is resumed, what it is
    suspended on, its promise, and [done()]. *)
Record Frame : Type := mkFrame {
  fr_prog    : Prog;
  fr_susp    : Susp;
  fr_promise : Promise;
  fr_done    : bool
}.

(** [CoroManager::Entry]; [coro] is the [TmplAny<Async>] ([None] once
    [Reset()] has destroyed the frame), [lambda] whether the cached
    closure is still held. *)
Record Entry : Type := mkEntry {
  coro     : option Frame;
  lambda   : bool;
  running  : bool;
  released : bool
}.

Definition defaultEntry : Entry := mkEntry None false true false.

(** Ghost events, recorded for the statements only. *)
Inductive Event : Type :=
| EvAdd (k c : nat) (t : Z) (id : N)
| EvResume (k c : nat) (id : N).

(** A [SchedulerBP] together with what the coroutine bodies touch. *)
Record World : Type := mkWorld {
  mNextId          : N;
  mCoroutines      : gmap N Entry;
  mNewFinishedCoro : N;
  mAlive           : bool;                 (* [mLiveSignal] still owned *)
  mExecuteQueues   : list (TQ.TimeQueue N); (* waiter: the root id *)
  mClock           : nat -> Z;              (* current reading of each clock *)
  user             : Z;                     (* host state of the bodies *)
  trace            : list Event             (* ghost *)
}.

Definition set_entries (m : gmap N Entry) (w : World) : World :=
  mkWorld (mNextId w) m (mNewFinishedCoro w) (mAlive w) (mExecuteQueues w)
          (mClock w) (user w) (trace w).
Definition set_slot (s : N) (w : World) : World :=
  mkWorld (mNextId w) (mCoroutines w) s (mAlive w) (mExecuteQueues w)
          (mClock w) (user w) (trace w).
Definition set_queues (qs : list (TQ.TimeQueue N)) (w : World) : World :=
  mkWorld (mNextId w) (mCoroutines w) (mNewFinishedCoro w) (mAlive w) qs
          (mClock w) (user w) (trace w).
Definition set_user (u : Z) (w : World) : World :=
  mkWorld (mNextId w) (mCoroutines w) (mNewFinishedCoro w) (mAlive w)
          (mExecuteQueues w) (mClock w) u (trace w).
Definition log (ev : Event) (w : World) : World :=
  mkWorld (mNextId w) (mCoroutines w) (mNewFinishedCoro w) (mAlive w)
          (mExecuteQueues w) (mClock w) (user w) (trace w ++ [ev]).

Definition u64_modulus : N := 18446744073709551616%N.

Section Scheduler.
(** [TimeEnum::Count]. *)
Variable TimeCount : nat.

Definition TypesToIndex (ph cl : nat) : nat := ph * TimeCount + cl.

Definition GetQueue (k : nat) (w : World) : Res (TQ.TimeQueue N) :=
  match mExecuteQueues w !! k with Some q => Ok q | None => Err Undefined end.

Definition set_queue (k : nat) (q : TQ.TimeQueue N) (w : World) : World :=
  set_queues (<[k := q]> (mExecuteQueues w)) w.

Definition GetCurrentTime (cl : nat) (w : World) : Z := mClock w cl.

(** [SchedulerBP::AddWait], with [WaitBP::await_suspend] storing the
    returned iterator. *)
Definition AddWait (id : N) (delay : Z) (ph cl : nat) (w : World)
  : Res (WaitRec * World) :=
  let k := TypesToIndex ph cl in
  q ← GetQueue k w;
  let executeTime := if Z.eqb delay 0 then 0%Z else (GetCurrentTime cl w + delay)%Z in
  let '(c, q') := TQ.AddTimed executeTime id q in
  Ok (mkWaitRec k (Some c), log (EvAdd k c executeTime id) (set_queue k q' w)).

(** [WaitBP::~WaitBP] through [SchedulerBP::RemoveWait]. *)
Definition DestroyWait (r : WaitRec) (w : World) : Res World :=
  match wr_iter r with
  | None => Ok w
  | Some c => q ← GetQueue (wr_key r) w; Ok (set_queue (wr_key r) (TQ.Remove c q) w)
  end.

(** Destroying a suspended frame: every awaiter it owns, recursively. *)
Fixpoint DestroySusp (s : Susp) (w : World) : Res World :=
  match s with
  | SNone => Ok w
  | SWait r => DestroyWait r w
  | SChild s => DestroySusp s w
  | SAll cs | SAny cs =>
      (fix go (cs : list Susp) (w : World) : Res World :=
         match cs with
         | [] => Ok w
         | c :: cs => w' ← DestroySusp c w; go cs w'
         end) cs w
  end.

Definition DestroyCoro (c : option Frame) (w : World) : Res World :=
  match c with None => Ok w | Some fr => DestroySusp (fr_susp fr) w end.

Definition set_frame (id : N) (f : Frame -> Frame) (w : World) : Res World :=
  match mCoroutines w !! id with
  | Some e =>
      match coro e with
      | Some fr =>
          Ok (set_entries (<[id := mkEntry (Some (f fr)) (lambda e) (running e) (released e)]>
                             (mCoroutines w)) w)
      | None => Err Undefined
      end
  | None => Err Undefined
  end.

(** [CoroManager::OnCoroutineFinished], reached from the final awaiter
    of a root. *)
Definition OnCoroutineFinished (id : N) (w : World) : Res World :=
  _ ← assert_ (negb (N.eqb id 0));
  _ ← assert_ (N.eqb (mNewFinishedCoro w) 0);
  Ok (set_slot id w).

(** Running the body of root [id] from [p] to its next suspension. *)
Fixpoint run (id : N) (p : Prog) (w : World) : Res World :=
  match p with
  | Act f k => run id k (set_user (f (user w)) w)
  | WaitP d ph cl k =>
      '(r, w1) ← AddWait id d ph cl w;
      set_frame id (fun fr => mkFrame k (SWait r) (fr_promise fr) false) w1
  | Ret v =>
      w1 ← set_frame id (fun fr => mkFrame (Ret v) SNone (mkPromise (Some v) None) true) w;
      OnCoroutineFinished id w1
  | Throw e =>
      w1 ← set_frame id (fun fr => mkFrame (Throw e) SNone (mkPromise None (Some e)) true) w;
      OnCoroutineFinished id w1
  end.

(** [WaitBP::Resume] for the wait popped from queue [k] at cursor [c],
    when the wait is that of a root frame; the wait of a child frame is
    outside this model (an assertion failure here), and is covered by
    [QueueUpdate]. *)
Definition ResumeWait (id : N) (k c : nat) (w : World) : Res World :=
  match mCoroutines w !! id with
  | Some e =>
      match coro e with
      | Some fr =>
          match fr_susp fr with
          | SWait r =>
              _ ← assert_ (negb (fr_done fr) && bool_decide (wr_iter r = Some c));
              w1 ← set_frame id (fun fr => mkFrame (fr_prog fr) SNone (fr_promise fr) false)
                     (log (EvResume k c id) w);
              run id (fr_prog fr) w1
          | _ => Err AssertFail
          end
      | None => Err Undefined
      end
  | None => Err Undefined
  end.

(** [CoroManager::StopNewFinishedCoro]. *)
Definition StopNewFinishedCoro (w : World) : Res World :=
  if N.eqb (mNewFinishedCoro w) 0 then Ok w else
  let id := mNewFinishedCoro w in
  match mCoroutines w !! id with
  | None => Err Undefined
  | Some e =>
      _ ← assert_ (running e);
      let w1 := set_slot 0 w in
      if released e then
        w2 ← DestroyCoro (coro e) w1; Ok (set_entries (delete id (mCoroutines w2)) w2)
      else
        Ok (set_entries (<[id := mkEntry (coro e) false false (released e)]> (mCoroutines w1)) w1)
  end.

(** The [while] loop of [SchedulerBP::Update] on queue [k]. *)
Fixpoint drain (fuel : nat) (k : nat) (w : World) : Res World :=
  match fuel with
  | 0 => Err OutOfFuel
  | S n =>
      q ← GetQueue k w;
      if TQ.CheckUpdate q then
        match TQ.Pop q with
        | Some ((t, c, id), q') =>
            w1 ← ResumeWait id k c (set_queue k q' w);
            w2 ← StopNewFinishedCoro w1;
            drain n k w2
        | None => Err Undefined
        end
      else Ok w
  end.

(** [SchedulerBP::Update(updateType, timeType)]. *)
Definition Update (fuel : nat) (ph cl : nat) (w : World) : Res World :=
  let k := TypesToIndex ph cl in
  q ← GetQueue k w;
  drain fuel k (set_queue k (TQ.SetupUpdate (GetCurrentTime cl w) q) w).

(** [CoroManager::Start]: returns the id of the new root. *)
Definition Start (p : Prog) (w : World) : Res (N * World) :=
  let id := mNextId w in
  let w0 := mkWorld ((id + 1) mod u64_modulus)%N (mCoroutines w) (mNewFinishedCoro w)
                    (mAlive w) (mExecuteQueues w) (mClock w) (user w) (trace w) in
  let e0 := match mCoroutines w0 !! id with Some e => e | None => defaultEntry end in
  w1 ← DestroyCoro (coro e0) w0;
  let e1 := mkEntry (Some (mkFrame p SNone emptyPromise false)) true (running e0) (released e0) in
  w2 ← run id p (set_entries (<[id := e1]> (mCoroutines w1)) w1);
  Ok (id, w2).

(** [CoroManager::Release]. *)
Definition Release (id : N) (w : World) : Res World :=
  match mCoroutines w !! id with
  | None => Err AssertFail
  | Some e =>
      _ ← assert_ (negb (released e));
      if running e then
        Ok (set_entries (<[id := mkEntry (coro e) (lambda e) true true]> (mCoroutines w)) w)
      else
        w1 ← DestroyCoro (coro e) w; Ok (set_entries (delete id (mCoroutines w1)) w1)
  end.

(** [CoroManager::IsDown]. *)
Definition IsDown (id : N) (w : World) : Res bool :=
  match mCoroutines w !! id with
  | None => Err AssertFail
  | Some e => Ok (negb (running e))
  end.

(** [CoroManager::Stop]: [running = false; coro.Reset(); lambda = {}]. *)
Definition Stop (id : N) (w : World) : Res World :=
  match mCoroutines w !! id with
  | None => Err AssertFail
  | Some e =>
      _ ← assert_ (negb (released e));
      if running e then
        w1 ← DestroyCoro (coro e)
               (set_entries (<[id := mkEntry (coro e) (lambda e) false (released e)]>
                              (mCoroutines w)) w);
        Ok (set_entries (<[id := mkEntry None false false (released e)]> (mCoroutines w1)) w1)
      else Ok w
  end.

(** [CoroManager::GetReturn<T>]: [mCoroutines[id].coro], then the
    promise of the frame it holds. *)
Definition GetReturn (id : N) (w : World) : Res (Taken * World) :=
  match mCoroutines w !! id with
  | None => Err Undefined
  | Some e =>
      match coro e with
      | None => Err Undefined
      | Some fr =>
          let '(r, p') := GetReturnValue (fr_promise fr) in
          w1 ← set_frame id (fun fr => mkFrame (fr_prog fr) (fr_susp fr) p' (fr_done fr)) w;
          Ok (r, w1)
      end
  end.

(** [SchedulerBP::~SchedulerBP]: [ClearCoros()], then every queue
    cleared; the live signal goes with the manager. *)
Definition DestroyScheduler (w : World) : Res World :=
  w1 ← foldr (fun ie acc => w' ← acc; DestroyCoro (coro ie.2) w')
             (Ok w) (map_to_list (mCoroutines w));
  Ok (mkWorld (mNextId w1) ∅ (mNewFinishedCoro w1) false
              (map TQ.Clear (mExecuteQueues w1)) (mClock w1) (user w1) (trace w1)).

End Scheduler.

(* ------------------------------------------------------------------ *)
(** ** Handle<T>                                                        *)
(* ------------------------------------------------------------------ *)

(** [mId], [mCoroMgr != nullptr], and whether [mCoroMgrLiveSignal]
    points to the live signal of the (single) manager. *)
Record Handle : Type := mkHandle {
  hId   : N;
  hMgr  : bool;
  hLive : bool
}.

Definition expired (h : Handle) (w : World) : bool := negb (hLive h && mAlive w).

(** [Handle(Handle&& other)]: the new handle, and what is left in [other]. *)
Definition Handle_move (h : Handle) : Handle * Handle :=
  (mkHandle (hId h) (hMgr h) (hLive h), mkHandle 0 false false).

Definition Handle_IsDown (h : Handle) (w : World) : Res bool :=
  if expired h w then Ok true else if hMgr h then IsDown (hId h) w else Err Undefined.

Definition Handle_Stop (h : Handle) (w : World) : Res World :=
  if expired h w then Ok w else if hMgr h then Stop (hId h) w else Err Undefined.

Definition Handle_TakeResult (h : Handle) (w : World) : Res (Taken * World) :=
  if expired h w then Ok (TEmpty, w) else if hMgr h then GetReturn (hId h) w else Err Undefined.

(** [Handle::~Handle]. *)
Definition Handle_Drop (h : Handle) (w : World) : Res World :=
  if negb (N.eqb (hId h) 0) && negb (expired h w) then
    (if hMgr h then Release (hId h) w else Err Undefined)
  else Ok w.

(** Modelled from the spec: [Handle::Forget] (4.6; absent from this
    version of tokoro.h): a forgotten handle keeps the sentinel id 0, so
    that dropping it does nothing. *)
Definition forgotten (h : Handle) : Handle := mkHandle 0 (hMgr h) (hLive h).


(* ------------------------------------------------------------------ *)
(** ** The All and Any awaiters                                         *)
(* ------------------------------------------------------------------ *)

(** The [std::coroutine_handle<>] returned by [OnWaitComplete]. *)
Inductive Cont : Type := ResumeParent | NoopCoroutine.

(** [RetConvert<T>]: the value, or [std::monostate] for [void]. *)
Inductive RetVal : Type := RVal (v : Z) | RUnit.

Inductive Resumed (A : Type) : Type :=
| Returned (a : A)
| Thrown (e : nat).
Arguments Returned {A} a.
Arguments Thrown {A} e.

(** A child [Async<T>] held by a combinator: the address of its frame,
    whether [T] is [void], and the frame. *)
Record Child : Type := mkChild {
  ch_addr  : nat;
  ch_void  : bool;
  ch_frame : Frame
}.

Definition with_promise (p : Promise) (c : Child) : Child :=
  mkChild (ch_addr c) (ch_void c)
          (mkFrame (fr_prog (ch_frame c)) (fr_susp (ch_frame c)) p (fr_done (ch_frame c))).

(** The child's result as [await_resume] reads it: [GetReturnValue()],
    then [std::monostate{}] for a [void] child. *)
Definition take_child (c : Child) : Res ((RetVal + nat) * Child) :=
  let '(r, p') := GetReturnValue (fr_promise (ch_frame c)) in
  let c' := with_promise p' c in
  match r with
  | TThrow e => Ok (inr e, c')
  | TValue v => Ok (inl (if ch_void c then RUnit else RVal v), c')
  | TEmpty => if ch_void c then Ok (inl RUnit, c') else Err Undefined
  end.

(** A child running to its end with promise [p]: its final awaiter is
    where the parent's [OnWaitComplete] is called. *)
Definition finish_child (p : Promise) (c : Child) : Child :=
  mkChild (ch_addr c) (ch_void c) (mkFrame (fr_prog (ch_frame c)) SNone p true).

Definition is_unit (r : RetVal) : bool := match r with RUnit => true | RVal _ => false end.
Definition promise_of (r : RetVal) : Promise :=
  match r with RVal v => mkPromise (Some v) None | RUnit => emptyPromise end.

(** [All<Ts...>]: [mWaitedCoros] and [mRemainingCount] ([std::size_t]). *)
Record AllAwaiter : Type := mkAll {
  all_waited    : list Child;
  all_remaining : N
}.

Definition All_make (cs : list Child) : AllAwaiter := mkAll cs (N.of_nat (length cs)).

Definition All_await_ready (a : AllAwaiter) : bool := N.eqb (all_remaining a) 0.

Definition All_OnWaitComplete (h : nat) (a : AllAwaiter) : Cont * AllAwaiter :=
  let r := ((all_remaining a + u64_modulus - 1) mod u64_modulus)%N in
  (if N.eqb r 0 then ResumeParent else NoopCoroutine, mkAll (all_waited a) r).

Fixpoint all_store (cs : list Child) : Res (Resumed (list RetVal) * list Child) :=
  match cs with
  | [] => Ok (Returned [], [])
  | c :: cs =>
      '(r, c') ← take_child c;
      match r with
      | inr e => Ok (Thrown e, c' :: cs)
      | inl v =>
          '(rest, cs') ← all_store cs;
          match rest with
          | Returned vs => Ok (Returned (v :: vs), c' :: cs')
          | Thrown e => Ok (Thrown e, c' :: cs')
          end
      end
  end.

(** [All::await_resume]: every child's result, in argument order. *)
Definition All_await_resume (a : AllAwaiter) : Res (Resumed (list RetVal) * AllAwaiter) :=
  '(r, cs') ← all_store (all_waited a);
  Ok (r, mkAll cs' (all_remaining a)).

(** Child [i] runs to its end with promise [p] and notifies the awaiter. *)
Definition All_child_done (i : nat) (p : Promise) (a : AllAwaiter) : Cont * AllAwaiter :=
  let cs := alter (finish_child p) i (all_waited a) in
  let h := match all_waited a !! i with Some c => ch_addr c | None => 0 end in
  All_OnWaitComplete h (mkAll cs (all_remaining a)).

Fixpoint All_run (evs : list (nat * Promise)) (a : AllAwaiter) : list Cont * AllAwaiter :=
  match evs with
  | [] => ([], a)
  | (i, p) :: evs =>
      let '(k, a1) := All_child_done i p a in
      let '(ks, a2) := All_run evs a1 in
      (k :: ks, a2)
  end.

(** [Any<Ts...>]: [mWaitedCoros] (an optional tuple), [mFirstFinish]
    ([None] is the null handle) and [mResults]. *)
Record AnyAwaiter : Type := mkAny {
  any_waited  : option (list Child);
  any_first   : option nat;
  any_results : list (option RetVal)
}.

Definition Any_make (cs : list Child) : AnyAwaiter :=
  mkAny (Some cs) None (repeat None (length cs)).

Definition Any_OnWaitComplete (h : nat) (a : AnyAwaiter) : Cont * AnyAwaiter :=
  (ResumeParent, mkAny (any_waited a) (Some h) (any_results a)).

(** The fold of [checkStoreWithIndexes] over the children from index [i]. *)
Fixpoint any_store (first : option nat) (i : nat) (cs : list Child)
    (res : list (option RetVal)) : Res (Resumed (list (option RetVal)) * list Child) :=
  match cs with
  | [] => Ok (Returned res, [])
  | c :: cs =>
      if bool_decide (Some (ch_addr c) = first) then
        '(r, c') ← take_child c;
        match r with
        | inr e => Ok (Thrown e, c' :: cs)
        | inl v =>
            '(rest, cs') ← any_store first (S i) cs (<[i := Some v]> res);
            Ok (rest, c' :: cs')
        end
      else
        '(rest, cs') ← any_store first (S i) cs res;
        Ok (rest, c :: cs')
  end.

(** Child [i] of an [Any] runs to its end with promise [p] and notifies
    the awaiter. *)
Definition Any_child_done (i : nat) (p : Promise) (a : AnyAwaiter) : Cont * AnyAwaiter :=
  let h := match any_waited a with
           | Some cs => match cs !! i with Some c => ch_addr c | None => 0 end
           | None => 0
           end in
  Any_OnWaitComplete h (mkAny (alter (finish_child p) i <$> any_waited a)
                              (any_first a) (any_results a)).

(** Destroying the children ([mWaitedCoros.reset()]). *)
Fixpoint DestroyChildren (cs : list Child) (w : World) : Res World :=
  match cs with
  | [] => Ok w
  | c :: cs => w' ← DestroySusp (fr_susp (ch_frame c)) w; DestroyChildren cs w'
  end.

(** [Any::await_resume]: store the first finisher's result, destroy every
    child, return [mResults]. *)
Definition Any_await_resume (a : AnyAwaiter) (w : World)
  : Res (Resumed (list (option RetVal)) * AnyAwaiter * World) :=
  match any_waited a with
  | None => Err Undefined
  | Some cs =>
      '(r, cs') ← any_store (any_first a) 0 cs (any_results a);
      match r with
      | Thrown e => Ok (Thrown e, mkAny (Some cs') (any_first a) (any_results a), w)
      | Returned res =>
          w' ← DestroyChildren cs' w;
          Ok (Returned res, mkAny None (any_first a) res, w')
      end
  end.


(* ------------------------------------------------------------------ *)
(** ** Observations used by the statements                              *)
(* ------------------------------------------------------------------ *)

(** The number of wait records in all the queues of a scheduler. *)
Definition total_size (w : World) : nat := sum_list_with TQ.Size (mExecuteQueues w).

(** [n] successive [TakeResult()] calls on one handle. *)
Fixpoint takes (n : nat) (h : Handle) (w : World) : Res (list Taken) :=
  match n with
  | 0 => Ok []
  | S n => '(r, w1) ← Handle_TakeResult h w; rs ← takes n h w1; Ok (r :: rs)
  end.

(** Destroying a list of wait records, in order. *)
Fixpoint destroy_waits (rs : list WaitRec) (w : World) : Res World :=
  match rs with
  | [] => Ok w
  | r :: rs => w' ← DestroyWait r w; destroy_waits rs w'
  end.

(** The wait records owned by a list of children. *)
Definition child_waits (cs : list Child) : list WaitRec :=
  List.flat_map (fun c => waits_of (fr_susp (ch_frame c))) cs.

(** The cursors held by a queue. *)
Definition cursors (q : TQ.TimeQueue N) : list nat :=
  map (fun e => e.1.2) (TQ.tq_timed q) ++ map fst (TQ.tq_next q).

(** The wait records of a suspension tree are pending in the queues
    [qs]: each holds an iterator that is in its queue, no two records hold
    the same iterator, and no queue holds a cursor twice. *)
Definition wait_pending (qs : list (TQ.TimeQueue N)) (r : WaitRec) : bool :=
  match wr_iter r, qs !! wr_key r with
  | Some c, Some q => bool_decide (c ∈ cursors q)
  | _, _ => false
  end.

Definition pending (rs : list WaitRec) (qs : list (TQ.TimeQueue N)) : bool :=
  forallb (wait_pending qs) rs &&
  bool_decide (NoDup (map (fun r => (wr_key r, wr_iter r)) rs)) &&
  forallb (fun q => bool_decide (NoDup (cursors q))) qs.

(** The cursor [c] is in no queue [k] of the scheduler. *)
Definition absent (k c : nat) (w : World) : Prop :=
  forall q, mExecuteQueues w !! k = Some q -> ~ In c (cursors q).

(* ------------------------------------------------------------------ *)
(** ** A small scheduler used by the concrete runs                      *)
(* ------------------------------------------------------------------ *)

(** One update type and one time type ([Update], [Realtime]), a clock at
    5 seconds, [count == 0], no coroutine yet. *)
Definition sched0 : World :=
  mkWorld 1 ∅ 0 true [TQ.empty] (fun _ => 5%Z) 0 [].

(** [{ co_await Wait(); count += 1; co_await Wait(); count += 2; }] *)
Definition next_frame_body : Prog :=
  WaitP 0 0 0 (Act (fun c => c + 1)%Z (WaitP 0 0 0 (Act (fun c => c + 2)%Z (Ret 0)))).

(** [{ co_await Wait(); count += 1; }] *)
Definition one_wait_body : Prog := WaitP 0 0 0 (Act (fun c => c + 1)%Z (Ret 0)).

(** The world after [Start] (one update type, one time type), and the
    entry / frame of a root, for the concrete runs. *)
Definition started (p : Prog) (w : World) : World :=
  match Start 1 p w with Ok (_, w') => w' | Err _ => w end.
Definition updated (w : World) : World :=
  match Update 1 10 0 0 w with Ok w' => w' | Err _ => w end.
Definition stopped (w : World) : World :=
  match Handle_Stop (mkHandle 1 true true) w with Ok w' => w' | Err _ => w end.
Definition entry_of (id : N) (w : World) : Entry :=
  default defaultEntry (mCoroutines w !! id).
Definition frame_of (id : N) (w : World) : Frame :=
  default (mkFrame (Ret 0) SNone emptyPromise false) (coro (entry_of id w)).

(** [{ co_await Wait(); co_return 7; }] and
    [{ co_await Wait(); throw 3; }] *)
Definition ret_body : Prog := WaitP 0 0 0 (Ret 7).
Definition throw_body : Prog := WaitP 0 0 0 (Throw 3).

(** Three children of an [All] / [Any], suspended on a wait each. *)
Definition child_frame (c : nat) : Frame :=
  mkFrame (Ret 0) (SWait (mkWaitRec 0 (Some c))) emptyPromise false.
Definition three_children : list Child :=
  [mkChild 10 false (child_frame 0); mkChild 11 false (child_frame 1);
   mkChild 12 false (child_frame 2)].

(** A scheduler whose queue holds the waits of children 0 and 2 of
    [three_children] (for root 1), due at the next drain. *)
Definition any_world : World :=
  mkWorld 2 ∅ 0 true [TQ.mkTimeQueue [] [(0, 1%N); (2, 1%N)] 0 3] (fun _ => 5%Z) 0 [].

(** Whether a body reaches a suspension point before [co_return] or an
    escaping exception. *)
Fixpoint suspends (p : Prog) : bool :=
  match p with
  | Ret _ | Throw _ => false
  | Act _ k => suspends k
  | WaitP _ _ _ _ => true
  end.

(** The flags of a root entry: cached closure held, [running], [released]. *)
Definition flags (e : Entry) : bool * bool * bool := (lambda e, running e, released e).

(** [CoroManager::Release] of root 1, and the destructor of the
    scheduler, as used by the concrete runs. *)
Definition released_once (w : World) : World :=
  match Release 1 w with Ok w' => w' | Err _ => w end.
Definition destroyed (w : World) : World :=
  match DestroyScheduler w with Ok w' => w' | Err _ => w end.

(* ------------------------------------------------------------------ *)
(** ** [Update] of one queue, whatever code its resumes run             *)
(* ------------------------------------------------------------------ *)

(** [SchedulerBP::Update(updateType, timeType)] seen from the queue it
    drains ([GetUpdateQueue(updateType, timeType)]), for any code run by
    the coroutines it resumes.  Between two [CheckUpdate()] calls the loop
    runs [Pop()->Resume()] and [StopNewFinishedCoro()]: [WaitBP::Resume]
    resumes the coroutine that awaited the wait (a root, a child awaited
    through [co_await], a child of an [All] / [Any], ...), and the code it
    runs reaches this queue only through [SchedulerBP::AddWait]
    ([AddTimed]), [SchedulerBP::RemoveWait] ([Remove], from [~WaitBP] when
    a frame holding a wait is destroyed: [Stop], the other children of a
    completed [Any], ...) and a nested [Update] of the same update and
    time types.  The rest of the program state is [St]; [W] is the
    waiter. *)
Module QueueUpdate.
Import TQ.
Section QueueUpdate.
Context {W St : Type}.

(** [GetCurrentTime(timeType)] in a program state. *)
Variable clock : St -> Z.

(** The code run between two [CheckUpdate()] calls, as it acts on the
    queue: [AddTimed(t, v)] hands the returned iterator on; a nested
    [Update] starts in a program state and hands on the state it ends in. *)
Inductive Code : Type :=
| Done (s : St)
| CAdd (t : Z) (v : W) (k : nat -> Code)
| CRem (c : nat) (k : Code)
| CUpd (s : St) (k : St -> Code).

(** What happens to the queue, in order (ghost): a nested [Update] is one
    entry, with its [GetCurrentTime] and what its own loop does. *)
Inductive Log : Type :=
| LUpdate (now : Z) (l : list Log)
| LPop (t : Z) (c : nat) (v : W)
| LAdd (t : Z) (c : nat) (v : W)
| LRem (c : nat).

(** [timeQueue.Pop()->Resume(); CoroManager::StopNewFinishedCoro();]
    for the popped entry, in a program state. *)
Variable resume : St -> Z * nat * W -> Code.

(** Running the code of one resume, [upd] being a nested [Update]. *)
Fixpoint exec (upd : TimeQueue W -> St -> option (TimeQueue W * St * list Log))
    (k : Code) (q : TimeQueue W) : option (TimeQueue W * St * list Log) :=
  match k with
  | Done s => Some (q, s, [])
  | CAdd t v k =>
      let '(c, q1) := AddTimed t v q in
      '(q2, s2, l) ← exec upd (k c) q1; Some (q2, s2, LAdd t c v :: l)
  | CRem c k =>
      '(q2, s2, l) ← exec upd k (Remove c q); Some (q2, s2, LRem c :: l)
  | CUpd s k =>
      '(q1, s1, l1) ← upd q s;
      '(q2, s2, l2) ← exec upd (k s1) q1; Some (q2, s2, l1 ++ l2)
  end.

(** The [while (timeQueue.CheckUpdate())] loop; [fuel] bounds its
    iterations, those of the nested [Update]s included. *)
Fixpoint drain (fuel : nat) (q : TimeQueue W) (s : St)
  : option (TimeQueue W * St * list Log) :=
  match fuel with
  | 0 => None
  | S n =>
      if CheckUpdate q then
        match Pop q with
        | Some ((t, c, v), q1) =>
            '(q2, s2, l1) ← exec (fun q s =>
                                    '(q', s', l) ← drain n (SetupUpdate (clock s) q) s;
                                    Some (q', s', [LUpdate (clock s) l]))
                                 (resume s (t, c, v)) q1;
            '(q3, s3, l2) ← drain n q2 s2;
            Some (q3, s3, LPop t c v :: l1 ++ l2)
        | None => None
        end
      else Some (q, s, [])
  end.

(** [timeQueue.SetupUpdate(GetCurrentTime(timeType))], then the loop;
    the log is what this loop does. *)
Definition Update (fuel : nat) (q : TimeQueue W) (s : St)
  : option (TimeQueue W * St * list Log) :=
  drain fuel (SetupUpdate (clock s) q) s.

(** The log with the nested [Update]s spelt out in place, each one's
    [SetupUpdate] marked by an [LUpdate] with an empty log. *)
Fixpoint flat_entry (x : Log) : list Log :=
  match x with
  | LUpdate now l =>
      LUpdate now [] ::
        (fix go (l : list Log) : list Log :=
           match l with [] => [] | y :: r => flat_entry y ++ go r end) l
  | _ => [x]
  end.
Definition flat (l : list Log) : list Log := flat_map flat_entry l.

End QueueUpdate.
Arguments Code : clear implicits.
Arguments Log : clear implicits.
End QueueUpdate.

(** Two children [10] and [11] of an [Any], each suspended on a
    [Wait()] of the drained queue (iterators 0 and 1): resuming child 10
    completes it, which resumes the parent, whose [await_resume] destroys
    child 11 and so removes its wait. *)
Definition any_pair_resume (s : unit) (e : Z * nat * nat) : QueueUpdate.Code nat unit :=
  if Nat.eqb e.2 10 then QueueUpdate.CRem 1 (QueueUpdate.Done s) else QueueUpdate.Done s.

(** A coroutine that, resumed, suspends again on [Wait()]. *)
Definition rewait_resume (s : unit) (e : Z * nat * nat) : QueueUpdate.Code nat unit :=
  QueueUpdate.CAdd 0 e.2 (fun _ => QueueUpdate.Done s).

(** The same two [Any] children in the full model: their frames, and a
    scheduler whose queue holds both waits (for root 1), due at the next
    drain. *)
Definition any_pair : list Child :=
  [mkChild 10 false (child_frame 0); mkChild 11 false (child_frame 1)].
Definition any_pair_world : World :=
  mkWorld 2 ∅ 0 true [TQ.mkTimeQueue [] [(0, 1%N); (1, 1%N)] 0 2] (fun _ => 5%Z) 0 [].

(* ================================================================== *)
(** * Proofs                                                           *)
(* ================================================================== *)

Module TQFacts.
Import TQ.
Section Order.
Context {W : Type}.

Definition dv (e : Z * nat * W) : Z * W := (e.1.1, e.2).
Definition dle (a b : Z * nat * W) : Prop := (a.1.1 <= b.1.1)%Z.
Definition fd (d : Z) (l : list (Z * W)) : list (Z * W) :=
  List.filter (fun x => Z.eqb x.1 d) l.

(** What a drain order must satisfy against the insertion order [L]:
    a permutation, ordered by deadline, insertion order among ties. *)
Definition Props (o : list (Z * nat * W)) (L : list (Z * W)) : Prop :=
  Permutation (map dv o) L /\ StronglySorted dle o /\
  forall d, fd d (map dv o) = fd d L.

Lemma fd_all_gt (d : Z) (o : list (Z * nat * W)) :
  Forall (fun e => (d < e.1.1)%Z) o -> fd d (map dv o) = [].
Proof.
  induction 1 as [|e o He Ho IH]; [done|].
  unfold fd in *; simpl. destruct (Z.eqb_spec e.1.1 d); [lia|]. exact IH.
Qed.

Lemma insert_timed_in (t : Z) (c : nat) (v : W) (o : list (Z * nat * W)) e :
  In e (insert_timed t c v o) <-> e = (t, c, v) \/ In e o.
Proof.
  induction o as [|[[t' c'] v'] o IH]; simpl; [intuition congruence|].
  destruct (Z.leb t' t); simpl; rewrite ?IH; intuition congruence.
Qed.

Lemma fd_cons (d : Z) (x : Z * W) (l : list (Z * W)) :
  fd d (x :: l) = if Z.eqb x.1 d then x :: fd d l else fd d l.
Proof. reflexivity. Qed.

Lemma insert_timed_fd (t : Z) (c : nat) (v : W) o d :
  StronglySorted dle o ->
  fd d (map dv (insert_timed t c v o)) = fd d (map dv o) ++ fd d [(t, v)].
Proof.
  induction 1 as [|[[t' c'] v'] o Hs IH Hall].
  - done.
  - cbn [insert_timed]. destruct (Z.leb_spec t' t).
    + cbn [map]. rewrite !fd_cons, IH. unfold dv at 1 3; simpl.
      by destruct (Z.eqb t' d).
    + change (map dv ((t, c, v) :: (t', c', v') :: o)) with
        ((t, v) :: map dv ((t', c', v') :: o)).
      rewrite fd_cons. simpl fst.
      destruct (Z.eqb_spec t d) as [->|Hne].
      * rewrite (fd_all_gt d ((t', c', v') :: o)).
        { unfold fd; simpl. by rewrite Z.eqb_refl. }
        constructor; [simpl; lia|].
        apply List.Forall_forall. intros e He.
        pose proof (proj1 (List.Forall_forall _ _) Hall e He) as H'.
        unfold dle in H'; simpl in H'. lia.
      * unfold fd at 3; simpl. destruct (Z.eqb_spec t d); [lia|].
        by rewrite app_nil_r.
Qed.

Lemma insert_timed_props (t : Z) (c : nat) (v : W) o L :
  Props o L -> Props (insert_timed t c v o) (L ++ [(t, v)]).
Proof.
  intros (Hp & Hs & Hf). split; [|split].
  - rewrite <- Hp. clear Hs Hf Hp.
    induction o as [|[[t' c'] v'] o IH]; simpl; [done|].
    destruct (Z.leb t' t); simpl.
    + by rewrite IH.
    + unfold dv at 1; simpl. apply Permutation_cons_append.
  - clear Hp Hf. induction Hs as [|[[t' c'] v'] o Hs IH Hall]; simpl.
    + repeat constructor.
    + destruct (Z.leb_spec t' t).
      * constructor; [exact IH|].
        apply List.Forall_forall. intros e He%insert_timed_in.
        destruct He as [->|He]; [unfold dle; simpl; lia|].
        by apply (proj1 (List.Forall_forall _ _) Hall).
      * constructor; [constructor; assumption|].
        constructor; [unfold dle; simpl; lia|].
        apply List.Forall_forall. intros e He. unfold dle; simpl.
        pose proof (proj1 (List.Forall_forall _ _) Hall e He) as H'.
        unfold dle in H'; simpl in H'. lia.
  - intros d. rewrite (insert_timed_fd t c v o d Hs), Hf.
    unfold fd. by rewrite List.filter_app.
Qed.

Lemma merge_next_props (ns : list (nat * W)) o L :
  Props o L ->
  Props (merge_next ns o) (L ++ map (fun '(c, v) => (0%Z, v)) ns).
Proof.
  revert o L. induction ns as [|[c v] ns IH]; intros o L HP; simpl.
  - by rewrite app_nil_r.
  - unfold merge_next; simpl. fold (merge_next ns (insert_timed 0 c v o)).
    replace (L ++ (0%Z, v) :: map (fun '(c, v) => (0%Z, v)) ns) with
      ((L ++ [(0%Z, v)]) ++ map (fun '(c, v) => (0%Z, v)) ns)
      by (by rewrite <- app_assoc).
    apply IH. by apply insert_timed_props.
Qed.

Definition nz (x : Z * W) : bool := negb (Z.eqb x.1 0).
Definition zr (x : Z * W) : bool := Z.eqb x.1 0.

Lemma add_all_props (l : list (Z * W)) (q : TimeQueue W) L Zs :
  Props (tq_timed q) L ->
  map (fun '(c, v) => (0%Z, v)) (tq_next q) = Zs ->
  Props (tq_timed (add_all l q)) (L ++ List.filter nz l) /\
  map (fun '(c, v) => (0%Z, v)) (tq_next (add_all l q)) = Zs ++ List.filter zr l.
Proof.
  revert q L Zs. induction l as [|[t v] l IH]; intros q L Zs HP HZ; simpl.
  - by rewrite !app_nil_r.
  - unfold add_all; simpl. fold (add_all l (AddTimed t v q).2).
    unfold AddTimed, nz, zr; simpl. destruct (Z.eqb_spec t 0) as [->|Hne]; simpl.
    + destruct (IH (mkTimeQueue (tq_timed q) (tq_next q ++ [(tq_seq q, v)])
                  (tq_now q) (S (tq_seq q))) L (Zs ++ [(0%Z, v)])) as [H1 H2];
        [exact HP| simpl; rewrite map_app, HZ; done|].
      split; [exact H1|]. rewrite H2, <- app_assoc. done.
    + destruct (IH (mkTimeQueue (insert_timed t (tq_seq q) v (tq_timed q)) (tq_next q)
                  (tq_now q) (S (tq_seq q))) (L ++ [(t, v)]) Zs) as [H1 H2];
        [simpl; by apply insert_timed_props | exact HZ |].
      split; [|exact H2]. rewrite <- app_assoc in H1. exact H1.
Qed.

Lemma filter_split_perm (l : list (Z * W)) :
  Permutation (List.filter nz l ++ List.filter zr l) l.
Proof.
  induction l as [|x l IH]; simpl; [done|].
  unfold nz, zr in *. destruct (Z.eqb x.1 0); simpl.
  - rewrite <- Permutation_middle. by constructor.
  - by constructor.
Qed.

Lemma filter_split_fd (l : list (Z * W)) d :
  fd d (List.filter nz l ++ List.filter zr l) = fd d l.
Proof.
  unfold fd. rewrite List.filter_app.
  destruct (Z.eqb_spec d 0) as [->|Hne].
  - replace (List.filter (fun x => Z.eqb x.1 0) (List.filter nz l)) with (@nil (Z * W)).
    + simpl. induction l as [|x l IH]; simpl; [done|].
      unfold zr at 1. destruct (Z.eqb x.1 0) eqn:E; simpl; rewrite ?E, IH; done.
    + induction l as [|x l IH]; simpl; [done|].
      unfold nz at 1. destruct (Z.eqb x.1 0) eqn:E; simpl; rewrite ?E; done.
  - replace (List.filter (fun x => Z.eqb x.1 d) (List.filter zr l)) with (@nil (Z * W)).
    + rewrite app_nil_r. induction l as [|x l IH]; simpl; [done|].
      unfold nz at 1. destruct (Z.eqb_spec x.1 0) as [E|E]; simpl.
      * destruct (Z.eqb_spec x.1 d); [lia|done].
      * destruct (Z.eqb x.1 d); simpl; rewrite IH; done.
    + induction l as [|x l IH]; simpl; [done|].
      unfold zr at 1. destruct (Z.eqb_spec x.1 0) as [E|E]; simpl; [|done].
      destruct (Z.eqb_spec x.1 d); [lia|done].
Qed.

Lemma drain_pops_all (fuel : nat) (q : TimeQueue W) :
  length (tq_timed q) <= fuel ->
  Forall (fun e => (e.1.1 <= tq_now q)%Z) (tq_timed q) ->
  drain_pops fuel q = tq_timed q.
Proof.
  destruct q as [timed next now seq]; simpl.
  revert fuel. induction timed as [|[[t c] v] timed IH]; intros fuel Hl Hall.
  - destruct fuel; simpl; [done|]. unfold CheckUpdate; simpl. done.
  - destruct fuel as [|fuel]; simpl in Hl; [lia|]. simpl.
    unfold CheckUpdate, Pop; simpl. inversion Hall as [|? ? Ht Hr]; subst.
    simpl in Ht. destruct (Z.leb_spec t now); [|lia].
    f_equal. apply IH; [lia|exact Hr].
Qed.

Lemma StronglySorted_map_dv (o : list (Z * nat * W)) :
  StronglySorted dle o -> Sorted (fun a b : Z * W => (a.1 <= b.1)%Z) (map dv o).
Proof.
  intros Hs. apply StronglySorted_Sorted.
  induction Hs as [|e o Hs IH Hall]; simpl; constructor; [exact IH|].
  apply Forall_map. eapply Forall_impl; [exact Hall|]. intros x Hx. exact Hx.
Qed.

Lemma Forall_map_inv_dv (now : Z) (o : list (Z * nat * W)) :
  Forall (fun x : Z * W => (x.1 <= now)%Z) (map dv o) ->
  Forall (fun e : Z * nat * W => (e.1.1 <= now)%Z) o.
Proof.
  induction o as [|e o IH]; simpl; intros H; [constructor|].
  inversion H; subst. constructor; [assumption|]. by apply IH.
Qed.

End Order.
End TQFacts.

(** * Facts about the manager and the handles *)

Module MgrFacts.

Ltac bind_simpl := unfold mbind, Res_bind; simpl.

Lemma set_queues_twice (qs qs' : list (TQ.TimeQueue N)) (w : World) :
  set_queues qs (set_queues qs' w) = set_queues qs w.
Proof. destruct w; reflexivity. Qed.

Lemma destroy_waits_app (rs1 rs2 : list WaitRec) (w : World) :
  destroy_waits (rs1 ++ rs2) w = (w' ← destroy_waits rs1 w; destroy_waits rs2 w').
Proof.
  revert w. induction rs1 as [|r rs IH]; intros w; [reflexivity|].
  simpl. destruct (DestroyWait r w); bind_simpl; [apply IH|reflexivity].
Qed.

(** Destroying a suspension tree destroys exactly its wait records. *)
Lemma DestroySusp_waits (s : Susp) : forall w, DestroySusp s w = destroy_waits (waits_of s) w.
Proof.
  induction s as [| r | s IH | cs Hcs | cs Hcs] using Susp_ind'; intros w.
  - reflexivity.
  - simpl. destruct (DestroyWait r w); reflexivity.
  - apply IH.
  - simpl. revert w. induction Hcs as [|c cs Hc Hcs IHcs]; intros w; [reflexivity|].
    rewrite destroy_waits_app, <- Hc. destruct (DestroySusp c w); bind_simpl;
      [apply IHcs|reflexivity].
  - simpl. revert w. induction Hcs as [|c cs Hc Hcs IHcs]; intros w; [reflexivity|].
    rewrite destroy_waits_app, <- Hc. destruct (DestroySusp c w); bind_simpl;
      [apply IHcs|reflexivity].
Qed.

Lemma DestroyWait_queues (r : WaitRec) (w w' : World) :
  DestroyWait r w = Ok w' -> w' = set_queues (mExecuteQueues w') w.
Proof.
  unfold DestroyWait, GetQueue. destruct (wr_iter r).
  - destruct (mExecuteQueues w !! wr_key r); bind_simpl; intros H; inversion H; subst.
    + reflexivity.
  - intros H; inversion H; subst. destruct w'; reflexivity.
Qed.

Lemma destroy_waits_queues (rs : list WaitRec) (w w' : World) :
  destroy_waits rs w = Ok w' -> w' = set_queues (mExecuteQueues w') w.
Proof.
  revert w. induction rs as [|r rs IH]; intros w; simpl.
  - intros H; inversion H; subst. destruct w'; reflexivity.
  - destruct (DestroyWait r w) as [w1|] eqn:Hd; bind_simpl; [|discriminate].
    intros H. apply IH in H. apply DestroyWait_queues in Hd.
    rewrite H, Hd at 1. rewrite set_queues_twice. reflexivity.
Qed.

Lemma DestroyCoro_queues (c : option Frame) (w w' : World) :
  DestroyCoro c w = Ok w' -> w' = set_queues (mExecuteQueues w') w.
Proof.
  destruct c as [fr|]; simpl.
  - rewrite DestroySusp_waits. apply destroy_waits_queues.
  - intros H; inversion H; subst. destruct w'; reflexivity.
Qed.

Lemma DestroyCoro_done (c : option Frame) (w : World) :
  (forall fr, c = Some fr -> fr_susp fr = SNone) -> DestroyCoro c w = Ok w.
Proof. destruct c as [fr|]; simpl; [intros H; rewrite (H fr eq_refl)|]; reflexivity. Qed.

Lemma set_entries_same (w : World) : set_entries (mCoroutines w) w = w.
Proof. destruct w; reflexivity. Qed.

Lemma bind_ok {A B} (m : Res A) (k : A -> Res B) (a : A) :
  m = Ok a -> (x ← m; k x) = k a.
Proof. intros ->. reflexivity. Qed.

Lemma take_result_step (h : Handle) (w : World) (e : Entry) (fr : Frame) :
  expired h w = false -> hMgr h = true ->
  mCoroutines w !! hId h = Some e -> coro e = Some fr ->
  Handle_TakeResult h w =
    Ok ((GetReturnValue (fr_promise fr)).1,
        set_entries (<[hId h := mkEntry (Some (mkFrame (fr_prog fr) (fr_susp fr)
                        (GetReturnValue (fr_promise fr)).2 (fr_done fr)))
                        (lambda e) (running e) (released e)]> (mCoroutines w)) w).
Proof.
  intros Hx Hm He Hc. unfold Handle_TakeResult, GetReturn, set_frame.
  rewrite Hx, Hm, He, Hc.
  destruct (GetReturnValue (fr_promise fr)) as [r p'] eqn:Hg.
  reflexivity.
Qed.

Lemma takes_empty (n : nat) (h : Handle) (w : World) (e : Entry) (fr : Frame) :
  expired h w = false -> hMgr h = true ->
  mCoroutines w !! hId h = Some e -> coro e = Some fr ->
  fr_promise fr = emptyPromise -> takes n h w = Ok (repeat TEmpty n).
Proof.
  intros Hx Hm He Hc Hp. induction n as [|n IH]; [reflexivity|].
  cbn [takes]. rewrite (take_result_step h w e fr Hx Hm He Hc), Hp.
  replace (set_entries _ w) with w.
  - simpl. rewrite IH. reflexivity.
  - rewrite <- Hp. destruct fr, e; simpl in *; subst.
    rewrite insert_id by done. symmetry. apply set_entries_same.
Qed.

Lemma takes_after_take (n : nat) (h : Handle) (w : World) (e : Entry) (fr : Frame) :
  expired h w = false -> hMgr h = true ->
  mCoroutines w !! hId h = Some e -> coro e = Some fr ->
  (GetReturnValue (fr_promise fr)).2 = emptyPromise ->
  takes (S n) h w = Ok ((GetReturnValue (fr_promise fr)).1 :: repeat TEmpty n).
Proof.
  intros Hx Hm He Hc Hp. cbn [takes].
  rewrite (take_result_step h w e fr Hx Hm He Hc). simpl.
  erewrite takes_empty; [reflexivity| | exact Hm | simpl; apply lookup_insert_eq | reflexivity | exact Hp].
  exact Hx.
Qed.

(** The running and taken cases of [TakeResult]: an empty promise reads
    as empty and is left as it is; an expired handle reads as empty. *)
Lemma take_result_empty_promise (h : Handle) (w : World) (e : Entry) (fr : Frame) :
  expired h w = false -> hMgr h = true ->
  mCoroutines w !! hId h = Some e -> coro e = Some fr ->
  fr_promise fr = emptyPromise -> Handle_TakeResult h w = Ok (TEmpty, w).
Proof.
  intros Hx Hm He Hc Hp.
  pose proof (takes_empty 1 h w e fr Hx Hm He Hc Hp) as H1. simpl in H1.
  rewrite (take_result_step h w e fr Hx Hm He Hc), Hp in *. simpl.
  replace (set_entries _ w) with w; [reflexivity|].
  rewrite <- Hp. destruct fr, e; simpl in *; subst.
  rewrite insert_id by done. symmetry. apply set_entries_same.
Qed.

Lemma take_result_expired (h : Handle) (w : World) :
  expired h w = true -> Handle_TakeResult h w = Ok (TEmpty, w).
Proof. intros Hx. unfold Handle_TakeResult. rewrite Hx. reflexivity. Qed.

End MgrFacts.

(** * Facts about removing waits from the queues *)

Module QueueFacts.
Import MgrFacts.

Definition pendingP (rs : list WaitRec) (qs : list (TQ.TimeQueue N)) : Prop :=
  Forall (fun r => exists c q, wr_iter r = Some c /\ qs !! wr_key r = Some q /\
                               In c (cursors q)) rs /\
  NoDup (map (fun r => (wr_key r, wr_iter r)) rs) /\
  Forall (fun q => NoDup (cursors q)) qs.

Lemma pending_spec (rs : list WaitRec) (qs : list (TQ.TimeQueue N)) :
  pending rs qs = true -> pendingP rs qs.
Proof.
  unfold pending. intros H. apply andb_prop in H as [H H3]. apply andb_prop in H as [H1 H2].
  apply bool_decide_eq_true in H2. split; [|split; [exact H2|]].
  - apply List.Forall_forall. intros r Hr. apply forallb_forall with (x := r) in H1; [|exact Hr].
    unfold wait_pending in H1. destruct (wr_iter r) as [c|]; [|discriminate].
    destruct (qs !! wr_key r) as [q|]; [|discriminate].
    apply bool_decide_eq_true in H1. exists c, q. split; [done|split; [done|]].
    by apply list_elem_of_In.
  - apply List.Forall_forall. intros q Hq. apply forallb_forall with (x := q) in H3; [|exact Hq].
    by apply bool_decide_eq_true in H3.
Qed.

Lemma map_filter_comm {A B} (f : A -> B) (p : B -> bool) (l : list A) :
  map f (List.filter (fun a => p (f a)) l) = List.filter p (map f l).
Proof. induction l as [|a l IH]; simpl; [done|]. destruct (p (f a)); simpl; by rewrite IH. Qed.

Lemma cursors_Remove (c : nat) (q : TQ.TimeQueue N) :
  cursors (TQ.Remove c q) = List.filter (fun x => negb (Nat.eqb x c)) (cursors q).
Proof.
  unfold cursors, TQ.Remove. simpl. rewrite List.filter_app.
  rewrite <- !map_filter_comm. reflexivity.
Qed.

Lemma Size_cursors (q : TQ.TimeQueue N) : TQ.Size q = length (cursors q).
Proof. unfold TQ.Size, cursors. rewrite length_app, !length_map. reflexivity. Qed.

Lemma filter_not_in (c : nat) (l : list nat) :
  ~ In c l -> List.filter (fun x => negb (Nat.eqb x c)) l = l.
Proof.
  induction l as [|a l IH]; intros Hn; simpl; [done|].
  destruct (Nat.eqb_spec a c) as [->|Hne]; [exfalso; apply Hn; left; done|].
  simpl. rewrite IH; [done|]. intros Hi; apply Hn; right; done.
Qed.

Lemma filter_remove_one (c : nat) (l : list nat) :
  NoDup l -> In c l -> length (List.filter (fun x => negb (Nat.eqb x c)) l) + 1 = length l.
Proof.
  induction l as [|a l IH]; intros Hd Hi; [destruct Hi|].
  apply NoDup_cons in Hd as [Ha Hd]. simpl.
  destruct (Nat.eqb_spec a c) as [->|Hne]; simpl.
  - rewrite filter_not_in; [lia|]. rewrite <- list_elem_of_In. exact Ha.
  - destruct Hi as [->|Hi]; [congruence|]. rewrite IH by done. lia.
Qed.

Lemma sum_insert (f : TQ.TimeQueue N -> nat) (l : list (TQ.TimeQueue N)) (k : nat) (x y : TQ.TimeQueue N) :
  l !! k = Some y -> sum_list_with f (<[k := x]> l) + f y = sum_list_with f l + f x.
Proof.
  revert k. induction l as [|a l IH]; intros k Hk; [discriminate|].
  destruct k as [|k]; simpl in *.
  - injection Hk as ->. lia.
  - specialize (IH k Hk). lia.
Qed.

Lemma destroy_waits_size (rs : list WaitRec) (w : World) :
  pendingP rs (mExecuteQueues w) ->
  exists w', destroy_waits rs w = Ok w' /\ total_size w' + length rs = total_size w.
Proof.
  revert w. induction rs as [|r rs IH]; intros w [H1 [H2 H3]].
  - exists w. split; [reflexivity|]. simpl. lia.
  - apply List.Forall_cons_iff in H1 as [[c [q [Hi [Hq Hin]]]] H1].
    simpl in H2. apply NoDup_cons in H2 as [Hn H2].
    set (w1 := set_queue (wr_key r) (TQ.Remove c q) w).
    assert (DestroyWait r w = Ok w1) as Hd.
    { unfold DestroyWait, GetQueue. rewrite Hi, Hq. reflexivity. }
    assert (Hk : wr_key r < length (mExecuteQueues w)) by (eapply lookup_lt_Some; exact Hq).
    assert (Hnd : NoDup (cursors q)).
    { apply (proj1 (List.Forall_forall _ _) H3). eapply list_elem_of_In, list_elem_of_lookup_2. exact Hq. }
    destruct (IH w1) as [w' [Hw' Hs]].
    + split; [|split; [exact H2|]].
      * apply List.Forall_forall. intros r' Hr'.
        apply (proj1 (List.Forall_forall _ _) H1) in Hr' as Hr''.
        destruct Hr'' as [c' [q' [Hi' [Hq' Hin']]]].
        exists c'. simpl.
        destruct (decide (wr_key r' = wr_key r)) as [Heq|Hne].
        -- exists (TQ.Remove c q). split; [done|]. split.
           ++ rewrite Heq. apply list_lookup_insert_eq. exact Hk.
           ++ rewrite cursors_Remove. apply List.filter_In. split.
              ** rewrite Heq, Hq in Hq'. injection Hq' as <-. exact Hin'.
              ** destruct (Nat.eqb_spec c' c) as [->|]; [|done].
                 exfalso. apply Hn. apply list_elem_of_In, in_map_iff. exists r'. split; [|done].
                 rewrite Heq, Hi, Hi'. reflexivity.
        -- exists q'. split; [done|]. split; [|done].
           rewrite list_lookup_insert_ne; [exact Hq'|]. congruence.
      * simpl. apply Forall_insert; [exact H3|]. rewrite cursors_Remove.
        apply NoDup_ListNoDup, List.NoDup_filter, NoDup_ListNoDup. exact Hnd.
    + exists w'. split.
      * simpl. rewrite Hd. exact Hw'.
      * simpl in Hs |- *. unfold total_size in *. simpl in Hs.
        pose proof (sum_insert TQ.Size (mExecuteQueues w) (wr_key r) (TQ.Remove c q) q Hq).
        rewrite !Size_cursors in *. rewrite cursors_Remove in *.
        pose proof (filter_remove_one c (cursors q) Hnd Hin). lia.
Qed.

End QueueFacts.

(** * Facts about the All awaiter *)

Module AllFacts.
Import MgrFacts.

Lemma dec_mod (r : N) : (1 <= r)%N -> (r < u64_modulus)%N ->
  ((r + u64_modulus - 1) mod u64_modulus = r - 1)%N.
Proof.
  intros H1 H2. replace (r + u64_modulus - 1)%N with (r - 1 + 1 * u64_modulus)%N by lia.
  rewrite N.Div0.mod_add. apply N.mod_small. lia.
Qed.

Lemma All_run_length (evs : list (nat * Promise)) (a : AllAwaiter) :
  length (all_waited (All_run evs a).2) = length (all_waited a).
Proof.
  revert a. induction evs as [|[i p] evs IH]; intros a; [reflexivity|].
  simpl. destruct (All_run evs _) as [ks a2] eqn:E. simpl.
  pose proof (IH (mkAll (alter (finish_child p) i (all_waited a))
                        ((all_remaining a + u64_modulus - 1) mod u64_modulus))) as H.
  rewrite E in H. simpl in H. rewrite H, length_alter. reflexivity.
Qed.

Section Run.
Variable pv : nat -> Promise.

Lemma All_run_conts (L : list nat) (a : AllAwaiter) :
  length L <= N.to_nat (all_remaining a) -> (all_remaining a < u64_modulus)%N ->
  (All_run (map (fun i => (i, pv i)) L) a).1 =
    map (fun j => if Nat.eqb j (N.to_nat (all_remaining a)) then ResumeParent else NoopCoroutine)
        (seq 1 (length L)).
Proof.
  revert a. induction L as [|i L IH]; intros a Hl Hm; [reflexivity|].
  simpl in Hl |- *. unfold All_child_done, All_OnWaitComplete. simpl.
  rewrite dec_mod by lia.
  set (a1 := mkAll (alter (finish_child (pv i)) i (all_waited a)) (all_remaining a - 1)).
  pose proof (IH a1 ltac:(simpl; lia) ltac:(simpl; lia)) as Hk.
  destruct (All_run (map (fun i => (i, pv i)) L) a1) as [ks a2] eqn:E. simpl in Hk |- *.
  f_equal.
  - destruct (N.eqb_spec (all_remaining a - 1) 0);
      destruct (N.to_nat (all_remaining a)) as [|[|m]] eqn:Hr; try reflexivity; lia.
  - rewrite Hk, <- (seq_shift (length L) 1), map_map. apply map_ext. intros j.
    destruct (Nat.eqb_spec j (N.to_nat (all_remaining a - 1))),
             (Nat.eqb_spec (S j) (N.to_nat (all_remaining a))); reflexivity || lia.
Qed.

Lemma All_run_waited (L : list nat) (a : AllAwaiter) :
  List.NoDup L -> forall i,
  all_waited (All_run (map (fun i => (i, pv i)) L) a).2 !! i =
    if existsb (Nat.eqb i) L then finish_child (pv i) <$> all_waited a !! i
    else all_waited a !! i.
Proof.
  revert a. induction L as [|i0 L IH]; intros a Hnd i; [reflexivity|].
  apply List.NoDup_cons_iff in Hnd as [Hi0 Hnd].
  cbn [map All_run]. unfold All_child_done, All_OnWaitComplete.
  match goal with |- context [All_run ?x ?y] =>
    destruct (All_run x y) as [ks a2] eqn:E; pose proof (IH y Hnd i) as H; rewrite E in H
  end.
  cbn [snd existsb] in H |- *. rewrite H. cbn [all_waited].
  destruct (Nat.eqb_spec i i0) as [->|Hne].
  - assert (existsb (Nat.eqb i0) L = false) as ->.
    { destruct (existsb (Nat.eqb i0) L) eqn:Hx; [|reflexivity].
      apply existsb_exists in Hx as [x [Hx Hxe]]. apply Nat.eqb_eq in Hxe. subst x.
      contradiction. }
    apply list_lookup_alter_eq.
  - rewrite list_lookup_alter_ne by congruence. reflexivity.
Qed.
End Run.

Lemma all_store_ok (cs : list Child) (outs : list RetVal) :
  length cs = length outs ->
  (forall i c o, cs !! i = Some c -> outs !! i = Some o ->
                 exists c', take_child c = Ok (inl o, c')) ->
  exists cs', all_store cs = Ok (Returned outs, cs').
Proof.
  revert outs. induction cs as [|c cs IH]; intros [|o outs] Hl Ht; try discriminate.
  - exists []. reflexivity.
  - destruct (Ht 0 c o eq_refl eq_refl) as [c' Hc].
    destruct (IH outs ltac:(simpl in Hl; lia) (fun i => Ht (S i))) as [cs' Hs].
    exists (c' :: cs'). simpl. rewrite Hc. bind_simpl. rewrite Hs. reflexivity.
Qed.

Lemma take_finished (c : Child) (o : RetVal) :
  ch_void c = is_unit o -> exists c', take_child (finish_child (promise_of o) c) = Ok (inl o, c').
Proof.
  intros H. destruct o as [v|]; unfold take_child; simpl in *; rewrite H; eexists; reflexivity.
Qed.

End AllFacts.

(** * Facts about the Any awaiter *)

Module AnyFacts.
Import MgrFacts QueueFacts.

Lemma DestroyWait_absent (r : WaitRec) (w w' : World) (k c : nat) :
  DestroyWait r w = Ok w' -> absent k c w -> absent k c w'.
Proof.
  unfold DestroyWait, GetQueue, absent. destruct (wr_iter r) as [c'|].
  - destruct (mExecuteQueues w !! wr_key r) as [q|] eqn:Hq; bind_simpl; [|discriminate].
    intros H; inversion H; subst; clear H. intros Ha q' Hq'. simpl in Hq'.
    apply list_lookup_insert_Some in Hq' as [[<- [<- _]]|[_ Hq']].
    + rewrite cursors_Remove, List.filter_In. intros [Hin _]. exact (Ha q Hq Hin).
    + exact (Ha q' Hq').
  - intros H; inversion H; subst. tauto.
Qed.

Lemma DestroyWait_absent_self (r : WaitRec) (w w' : World) (c : nat) :
  wr_iter r = Some c -> DestroyWait r w = Ok w' -> absent (wr_key r) c w'.
Proof.
  unfold DestroyWait, GetQueue, absent. intros ->.
  destruct (mExecuteQueues w !! wr_key r) as [q|] eqn:Hq; bind_simpl; [|discriminate].
  intros H; inversion H; subst; clear H. intros q' Hq'. simpl in Hq'.
  rewrite list_lookup_insert_eq in Hq' by (eapply lookup_lt_Some; exact Hq).
  injection Hq' as <-. rewrite cursors_Remove, List.filter_In, Nat.eqb_refl. simpl. intros [_ Hf]. discriminate Hf.
Qed.

Lemma destroy_waits_absent (rs : list WaitRec) (w w' : World) :
  destroy_waits rs w = Ok w' ->
  forall r c, In r rs -> wr_iter r = Some c -> absent (wr_key r) c w'.
Proof.
  assert (Hmono : forall rs w w' k c, destroy_waits rs w = Ok w' -> absent k c w -> absent k c w').
  { clear. induction rs as [|r rs IH]; intros w w' k c; simpl.
    - intros H; inversion H; subst. tauto.
    - destruct (DestroyWait r w) as [w1|] eqn:Hd; bind_simpl; [|discriminate].
      intros H Ha. exact (IH _ _ _ _ H (DestroyWait_absent r w w1 k c Hd Ha)). }
  revert w. induction rs as [|r0 rs IH]; intros w; simpl; [tauto|].
  destruct (DestroyWait r0 w) as [w1|] eqn:Hd; bind_simpl; [|discriminate].
  intros H r c [<-|Hr] Hc.
  - exact (Hmono _ _ _ _ _ H (DestroyWait_absent_self r0 w w1 c Hc Hd)).
  - exact (IH w1 H r c Hr Hc).
Qed.

Lemma DestroyChildren_waits (cs : list Child) (w : World) :
  DestroyChildren cs w = destroy_waits (child_waits cs) w.
Proof.
  revert w. induction cs as [|c cs IH]; intros w; [reflexivity|].
  simpl. rewrite destroy_waits_app, DestroySusp_waits.
  destruct (destroy_waits (waits_of (fr_susp (ch_frame c))) w); bind_simpl; [apply IH|reflexivity].
Qed.

Lemma child_waits_done (f : Child -> Child) (x : Child) (cs : list Child) (i : nat) :
  waits_of (fr_susp (ch_frame x)) = [] -> i < length cs ->
  child_waits (<[i := x]> (alter f i cs)) = child_waits (delete i cs).
Proof.
  intros Hx. revert i. induction cs as [|c cs IH]; intros [|i] Hi; simpl in *; try lia.
  - unfold child_waits in *. simpl. rewrite Hx. reflexivity.
  - unfold child_waits in *. simpl. f_equal. apply IH. lia.
Qed.

Lemma take_child_susp (c c' : Child) (r : RetVal + nat) :
  take_child c = Ok (r, c') -> fr_susp (ch_frame c') = fr_susp (ch_frame c).
Proof.
  unfold take_child. destruct (GetReturnValue _) as [t p'].
  destruct t; [|destruct (ch_void c)|]; intros H; inversion H; subst; reflexivity.
Qed.

Lemma any_store_none (first : option nat) (j : nat) (cs : list Child) (res : list (option RetVal)) :
  Forall (fun c => Some (ch_addr c) <> first) cs ->
  any_store first j cs res = Ok (Returned res, cs).
Proof.
  revert j. induction cs as [|c cs IH]; intros j H; [reflexivity|].
  apply List.Forall_cons_iff in H as [Hc H]. simpl.
  rewrite bool_decide_false by exact Hc. bind_simpl. rewrite IH by exact H. reflexivity.
Qed.

Lemma any_store_hit (first : option nat) (cs : list Child) (m : nat) (c c' : Child) (v : RetVal) :
  cs !! m = Some c -> Some (ch_addr c) = first ->
  (forall m' c0, m' <> m -> cs !! m' = Some c0 -> Some (ch_addr c0) <> first) ->
  take_child c = Ok (inl v, c') ->
  forall j res, any_store first j cs res = Ok (Returned (<[j + m := Some v]> res), <[m := c']> cs).
Proof.
  revert m. induction cs as [|c0 cs IH]; intros m Hm Hf Ho Ht j res; [discriminate|].
  destruct m as [|m]; simpl in Hm.
  - injection Hm as ->. simpl. rewrite bool_decide_true by exact Hf. rewrite Ht. bind_simpl.
    rewrite any_store_none.
    + rewrite Nat.add_0_r. reflexivity.
    + apply List.Forall_forall. intros c1 Hc1.
      apply list_elem_of_In, list_elem_of_lookup_1 in Hc1 as [m' Hm'].
      apply (Ho (S m')); [lia|]. exact Hm'.
  - simpl. rewrite bool_decide_false by (apply (Ho 0); [lia|reflexivity]). bind_simpl.
    rewrite (IH m Hm Hf (fun m' c1 Hne H => Ho (S m') c1 ltac:(lia) H) Ht (S j)).
    bind_simpl. rewrite Nat.add_succ_r. reflexivity.
Qed.

End AnyFacts.

(** * Claims *)

(** * Facts about one drain of a queue *)

Module DrainFacts.
Import TQ TQFacts MgrFacts.

Lemma insert_timed_sorted {W : Type} (t : Z) (c : nat) (v : W) (o : list (Z * nat * W)) :
  StronglySorted dle o -> StronglySorted dle (insert_timed t c v o).
Proof.
  induction o as [|[[t' c'] v'] o IH]; simpl; intros Hs.
  - repeat constructor.
  - inversion Hs as [|? ? Hs' Hall]; subst.
    destruct (Z.leb_spec t' t).
    + constructor; [apply IH, Hs'|]. apply List.Forall_forall. intros e He.
      apply insert_timed_in in He as [->|He]; [unfold dle; simpl; lia|].
      exact (proj1 (List.Forall_forall _ _) Hall e He).
    + constructor; [exact Hs|]. constructor; [unfold dle; simpl; lia|].
      apply List.Forall_forall. intros e He.
      pose proof (proj1 (List.Forall_forall _ _) Hall e He) as Hd.
      unfold dle in *; simpl in *; lia.
Qed.

Lemma merge_next_in {W : Type} (ns : list (nat * W)) (o : list (Z * nat * W)) e :
  In e (merge_next ns o) <-> In e o \/ exists c v, e = (0%Z, c, v) /\ In (c, v) ns.
Proof.
  unfold merge_next. revert o. induction ns as [|[c v] ns IH]; intros o; simpl.
  - split; [auto|]. intros [H|(? & ? & _ & [])]. exact H.
  - rewrite IH, insert_timed_in. split.
    + intros [[->|H]|(c' & v' & -> & H)].
      * right. exists c, v. auto.
      * left. exact H.
      * right. exists c', v'. auto.
    + intros [H|(c' & v' & -> & [Heq|H])].
      * left. right. exact H.
      * injection Heq as -> ->. left. left. reflexivity.
      * right. exists c', v'. auto.
Qed.

Lemma merge_next_sorted {W : Type} (ns : list (nat * W)) (o : list (Z * nat * W)) :
  StronglySorted dle o -> StronglySorted dle (merge_next ns o).
Proof.
  unfold merge_next. revert o. induction ns as [|[c v] ns IH]; intros o Hs; simpl; [exact Hs|].
  apply IH, insert_timed_sorted, Hs.
Qed.

(** A sorted queue that holds an entry of deadline 0 is due in a drain
    whose snapshot is not negative. *)
Lemma CheckUpdate_zero {W : Type} (q : TimeQueue W) (c : nat) (v : W) :
  StronglySorted dle (tq_timed q) -> (0 <= tq_now q)%Z -> In (0%Z, c, v) (tq_timed q) ->
  CheckUpdate q = true.
Proof.
  unfold CheckUpdate. destruct (tq_timed q) as [|[[t c'] v'] l]; [intros _ _ []|].
  intros Hs Hn Hin. apply Z.leb_le.
  inversion Hs as [|? ? _ Hall]; subst.
  destruct Hin as [Heq|Hin]; [injection Heq as Ht _ _; subst t; lia|].
  pose proof (proj1 (List.Forall_forall _ _) Hall _ Hin) as Hd. unfold dle in Hd; simpl in Hd. lia.
Qed.

Lemma set_frame_ok (id : N) (f : Frame -> Frame) (w w' : World) :
  set_frame id f w = Ok w' ->
  exists e fr, mCoroutines w !! id = Some e /\ coro e = Some fr /\
    w' = set_entries (<[id := mkEntry (Some (f fr)) (lambda e) (running e) (released e)]>
                        (mCoroutines w)) w.
Proof.
  unfold set_frame. destruct (mCoroutines w !! id) as [e|]; [|discriminate].
  destruct (coro e) as [fr|] eqn:Hc; [|discriminate].
  intros H; inversion H; subst. eauto.
Qed.

Lemma set_frame_same (id : N) (f : Frame -> Frame) (w w' : World) :
  set_frame id f w = Ok w' ->
  mExecuteQueues w' = mExecuteQueues w /\ trace w' = trace w /\
  mNewFinishedCoro w' = mNewFinishedCoro w.
Proof. intros H. apply set_frame_ok in H as (e & fr & _ & _ & ->). auto. Qed.

Lemma OnCoroutineFinished_ok (id : N) (w w' : World) :
  OnCoroutineFinished id w = Ok w' -> w' = set_slot id w.
Proof.
  unfold OnCoroutineFinished, assert_.
  destruct (negb (N.eqb id 0)); bind_simpl; [|discriminate].
  destruct (N.eqb (mNewFinishedCoro w) 0); bind_simpl; [|discriminate].
  intros H; inversion H; reflexivity.
Qed.

(** What running a body leaves in the slot [mNewFinishedCoro]: nothing,
    or the root itself with a frame that owns no awaiter. *)
Definition slot_done (id : N) (w : World) : Prop :=
  mNewFinishedCoro w = 0%N \/
  (mNewFinishedCoro w = id /\ exists e fr, mCoroutines w !! id = Some e /\
     coro e = Some fr /\ fr_susp fr = SNone).

Section Steps.
Variable TC : nat.

Lemma AddWait_same (id : N) (d : Z) (ph cl : nat) (w w' : World) (r : WaitRec) :
  AddWait TC id d ph cl w = Ok (r, w') ->
  mNewFinishedCoro w' = mNewFinishedCoro w.
Proof.
  unfold AddWait, GetQueue. destruct (mExecuteQueues w !! TypesToIndex TC ph cl) as [q|];
    bind_simpl; [|discriminate].
  destruct (AddTimed _ id q). intros H; inversion H; reflexivity.
Qed.

Lemma run_slot (id : N) (p : Prog) (w w' : World) :
  mNewFinishedCoro w = 0%N -> run TC id p w = Ok w' -> slot_done id w'.
Proof.
  revert w. induction p as [v|ex|f p IH|d ph cl p IH]; intros w H0; simpl.
  - destruct (set_frame _ _ w) as [w1|] eqn:Hf; bind_simpl; [|discriminate].
    intros Ho. apply OnCoroutineFinished_ok in Ho as ->.
    apply set_frame_ok in Hf as (e & fr & _ & _ & ->).
    right. split; [reflexivity|]. eexists _, _. simpl.
    rewrite lookup_insert_eq. split; [reflexivity|]. split; reflexivity.
  - destruct (set_frame _ _ w) as [w1|] eqn:Hf; bind_simpl; [|discriminate].
    intros Ho. apply OnCoroutineFinished_ok in Ho as ->.
    apply set_frame_ok in Hf as (e & fr & _ & _ & ->).
    right. split; [reflexivity|]. eexists _, _. simpl.
    rewrite lookup_insert_eq. split; [reflexivity|]. split; reflexivity.
  - apply IH. exact H0.
  - destruct (AddWait TC id d ph cl w) as [[r w1]|] eqn:Ha; bind_simpl; [|discriminate].
    intros Hf. apply set_frame_same in Hf as (_ & _ & Hs).
    apply AddWait_same in Ha. left. rewrite Hs, Ha. exact H0.
Qed.

Lemma ResumeWait_slot (id : N) (k c : nat) (w w' : World) :
  mNewFinishedCoro w = 0%N -> ResumeWait TC id k c w = Ok w' -> slot_done id w'.
Proof.
  intros H0. unfold ResumeWait.
  destruct (mCoroutines w !! id) as [e|]; [|discriminate].
  destruct (coro e) as [fr|]; [|discriminate].
  destruct (fr_susp fr); try discriminate.
  unfold assert_. destruct (_ && _); bind_simpl; [|discriminate].
  destruct (set_frame _ _ _) as [w1|] eqn:Hf; bind_simpl; [|discriminate].
  apply set_frame_same in Hf as (_ & _ & Hs). apply run_slot.
  rewrite Hs. exact H0.
Qed.

Lemma StopNewFinishedCoro_done (id : N) (w w' : World) :
  slot_done id w -> StopNewFinishedCoro w = Ok w' ->
  mExecuteQueues w' = mExecuteQueues w /\ trace w' = trace w /\ mNewFinishedCoro w' = 0%N.
Proof.
  unfold StopNewFinishedCoro. intros Hd.
  destruct (N.eqb_spec (mNewFinishedCoro w) 0) as [H0|H0].
  - intros H; inversion H; subst. auto.
  - destruct Hd as [Hd|(Hd & e & fr & He & Hc & Hs)]; [contradiction|].
    rewrite Hd, He. unfold assert_. destruct (running e); bind_simpl; [|discriminate].
    destruct (released e).
    + rewrite DestroyCoro_done; [|intros fr' Hfr; rewrite Hc in Hfr; injection Hfr as <-; exact Hs].
      bind_simpl. intros H; inversion H; subst. auto.
    + intros H; inversion H; subst. auto.
Qed.

(** Running bodies and resuming waits keep any property of the queues
    and of the trace that adding a wait keeps. *)
Section Preserve.
Variable P : World -> Prop.
Hypothesis P_ext : forall w1 w2, mExecuteQueues w1 = mExecuteQueues w2 ->
  trace w1 = trace w2 -> P w1 -> P w2.
Hypothesis P_add : forall id d ph cl w r w', AddWait TC id d ph cl w = Ok (r, w') -> P w -> P w'.

Lemma run_pres (id : N) (p : Prog) (w w' : World) :
  run TC id p w = Ok w' -> P w -> P w'.
Proof.
  revert w. induction p as [v|ex|f p IH|d ph cl p IH]; intros w; simpl.
  - destruct (set_frame _ _ w) as [w1|] eqn:Hf; bind_simpl; [|discriminate].
    intros Ho HP. apply OnCoroutineFinished_ok in Ho as ->.
    apply set_frame_same in Hf as (Hq & Ht & _).
    apply (P_ext w); [exact (eq_sym Hq)|exact (eq_sym Ht)|exact HP].
  - destruct (set_frame _ _ w) as [w1|] eqn:Hf; bind_simpl; [|discriminate].
    intros Ho HP. apply OnCoroutineFinished_ok in Ho as ->.
    apply set_frame_same in Hf as (Hq & Ht & _).
    apply (P_ext w); [exact (eq_sym Hq)|exact (eq_sym Ht)|exact HP].
  - intros Hr HP. apply (IH _ Hr). apply (P_ext w); [reflexivity|reflexivity|exact HP].
  - destruct (AddWait TC id d ph cl w) as [[r w1]|] eqn:Ha; bind_simpl; [|discriminate].
    intros Hf HP. apply set_frame_same in Hf as (Hq & Ht & _).
    apply (P_ext w1); [exact (eq_sym Hq)|exact (eq_sym Ht)|]. exact (P_add _ _ _ _ _ _ _ Ha HP).
Qed.

Lemma ResumeWait_pres (id : N) (k c : nat) (w w' : World) :
  ResumeWait TC id k c w = Ok w' -> P (log (EvResume k c id) w) -> P w'.
Proof.
  unfold ResumeWait.
  destruct (mCoroutines w !! id) as [e|]; [|discriminate].
  destruct (coro e) as [fr|]; [|discriminate].
  destruct (fr_susp fr); try discriminate.
  unfold assert_. destruct (_ && _); bind_simpl; [|discriminate].
  destruct (set_frame _ _ _) as [w1|] eqn:Hf; bind_simpl; [|discriminate].
  intros Hr HP. apply (run_pres _ _ _ _ Hr).
  apply set_frame_same in Hf as (Hq & Ht & _).
  exact (P_ext _ _ (eq_sym Hq) (eq_sym Ht) HP).
Qed.

End Preserve.
End Steps.

(** The invariant of a drain of queue [k] that started on the trace
    [base], with [N0] the zero-deadline waits that were due at its start:
    the queue stays sorted with a non-negative snapshot and fresh cursors
    above every held one; a zero-deadline wait added to [k] during the
    drain sits in [tq_next] and never in the ordered part; every wait
    resumed from [k] during the drain was not added there with deadline 0
    during it; and each wait of [N0] is resumed or still due. *)
Section Inv.
Variable k : nat.
Variable N0 : list (nat * N).
Variable base : list Event.

Definition Inv (w : World) : Prop :=
  exists q seg, mExecuteQueues w !! k = Some q /\ trace w = base ++ seg /\
  StronglySorted dle (tq_timed q) /\ (0 <= tq_now q)%Z /\
  (forall e, In e (tq_timed q) -> e.1.2 < tq_seq q) /\
  (forall x, In x (tq_next q) -> x.1 < tq_seq q) /\
  (forall c id, In (EvAdd k c 0%Z id) seg ->
     In (c, id) (tq_next q) /\ forall e, In e (tq_timed q) -> e.1.2 <> c) /\
  (forall c id, In (EvResume k c id) seg ->
     c < tq_seq q /\ forall id', ~ In (EvAdd k c 0%Z id') seg) /\
  (forall c id, In (c, id) N0 -> In (EvResume k c id) seg \/ In (0%Z, c, id) (tq_timed q)).

Lemma Inv_ext (w1 w2 : World) :
  mExecuteQueues w1 = mExecuteQueues w2 -> trace w1 = trace w2 -> Inv w1 -> Inv w2.
Proof. unfold Inv. intros -> ->. exact id. Qed.

Lemma In_snoc {A} (x y : A) (l : list A) : In x (l ++ [y]) <-> In x l \/ x = y.
Proof. rewrite in_app_iff. simpl. intuition. Qed.

Lemma AddWait_Inv (TC : nat) (id : N) (d : Z) (ph cl : nat) (w w' : World) (r : WaitRec) :
  AddWait TC id d ph cl w = Ok (r, w') -> Inv w -> Inv w'.
Proof.
  unfold AddWait, GetQueue.
  destruct (mExecuteQueues w !! TypesToIndex TC ph cl) as [q2|] eqn:Hq2; bind_simpl; [|discriminate].
  set (t := if Z.eqb d 0 then 0%Z else (GetCurrentTime cl w + d)%Z).
  destruct (AddTimed t id q2) as [c q2'] eqn:Ha.
  intros H; inversion H; subst; clear H.
  intros (q & seg & Hq & Ht & Hs & Hn & Hbt & Hbn & Hadd & Hres & HN0).
  exists (if decide (TypesToIndex TC ph cl = k) then q2' else q),
         (seg ++ [EvAdd (TypesToIndex TC ph cl) c t id]).
  simpl. rewrite Ht, app_assoc. split; [|split; [reflexivity|]].
  { destruct (decide _) as [Hk|Hk].
    - rewrite <- Hk. apply list_lookup_insert_eq. apply lookup_lt_Some with q2. exact Hq2.
    - rewrite list_lookup_insert_ne; [exact Hq|exact Hk]. }
  destruct (decide (TypesToIndex TC ph cl = k)) as [Hk|Hk].
  - rewrite Hk in Hq2 |- *. rewrite Hq in Hq2. injection Hq2 as <-.
    unfold AddTimed in Ha. destruct (Z.eqb_spec t 0) as [Ht0|Ht0];
      injection Ha as <- <-; simpl.
    + (* a zero deadline: into [tq_next] *)
      split; [exact Hs|]. split; [exact Hn|].
      split; [intros e He; specialize (Hbt e He); lia|].
      split.
      { intros x Hx. apply In_snoc in Hx as [Hx| ->]; [specialize (Hbn x Hx); lia|simpl; lia]. }
      split; [|split].
      * intros c' id' Hin. apply In_snoc in Hin as [Hin|Heq].
        -- destruct (Hadd c' id' Hin) as [Hx He]. split; [apply In_snoc; left; exact Hx|exact He].
        -- injection Heq; intros; subst. split; [apply In_snoc; right; reflexivity|].
           intros e He. specialize (Hbt e He). lia.
      * intros c' id' Hin. apply In_snoc in Hin as [Hin|Heq]; [|discriminate].
        destruct (Hres c' id' Hin) as [Hc Hna]. split; [lia|].
        intros id'' Hin'. apply In_snoc in Hin' as [Hin'|Heq]; [exact (Hna id'' Hin')|].
        injection Heq as -> _. lia.
      * intros c' id' Hin. destruct (HN0 c' id' Hin) as [H|H]; [left; apply In_snoc; left; exact H|right; exact H].
    + (* a positive deadline: into the ordered part *)
      split; [apply insert_timed_sorted, Hs|]. split; [exact Hn|].
      split.
      { intros e He. apply insert_timed_in in He as [->|He]; simpl; [lia|specialize (Hbt e He); lia]. }
      split; [intros x Hx; specialize (Hbn x Hx); lia|].
      split; [|split].
      * intros c' id' Hin. apply In_snoc in Hin as [Hin|Heq]; [|injection Heq; intros; congruence].
        destruct (Hadd c' id' Hin) as [Hx He]. split; [exact Hx|].
        intros e He'. apply insert_timed_in in He' as [->|He']; [|exact (He e He')].
        simpl. specialize (Hbn _ Hx). simpl in Hbn. lia.
      * intros c' id' Hin. apply In_snoc in Hin as [Hin|Heq]; [|discriminate].
        destruct (Hres c' id' Hin) as [Hc Hna]. split; [lia|].
        intros id'' Hin'. apply In_snoc in Hin' as [Hin'|Heq]; [exact (Hna id'' Hin')|].
        injection Heq; intros; congruence.
      * intros c' id' Hin. destruct (HN0 c' id' Hin) as [H|H]; [left; apply In_snoc; left; exact H|].
        right. apply insert_timed_in. right. exact H.
  - (* another queue *)
    split; [exact Hs|]. split; [exact Hn|]. split; [exact Hbt|]. split; [exact Hbn|].
    split; [|split].
    + intros c' id' Hin. apply In_snoc in Hin as [Hin|Heq]; [exact (Hadd c' id' Hin)|].
      injection Heq as Heq _ _ _. congruence.
    + intros c' id' Hin. apply In_snoc in Hin as [Hin|Heq]; [|discriminate].
      destruct (Hres c' id' Hin) as [Hc Hna]. split; [exact Hc|].
      intros id'' Hin'. apply In_snoc in Hin' as [Hin'|Heq]; [exact (Hna id'' Hin')|].
      injection Heq as Heq _ _ _. congruence.
    + intros c' id' Hin. destruct (HN0 c' id' Hin) as [H|H]; [left; apply In_snoc; left; exact H|right; exact H].
Qed.

(** Popping the least entry of [k] and logging its resumption. *)
Lemma Pop_Inv (w : World) (q q' : TimeQueue N) (t : Z) (c : nat) (id : N) :
  mExecuteQueues w !! k = Some q -> Pop q = Some ((t, c, id), q') ->
  Inv w -> Inv (log (EvResume k c id) (set_queue k q' w)).
Proof.
  intros Hq0 Hp (q1 & seg & Hq & Ht & Hs & Hn & Hbt & Hbn & Hadd & Hres & HN0).
  rewrite Hq in Hq0. injection Hq0 as <-.
  unfold Pop in Hp. destruct (tq_timed q1) as [|e l] eqn:Hl; [discriminate|].
  injection Hp as -> <-.
  exists (mkTimeQueue l (tq_next q1) (tq_now q1) (tq_seq q1)), (seg ++ [EvResume k c id]).
  simpl. rewrite Ht, app_assoc. split; [|split; [reflexivity|]].
  { apply list_lookup_insert_eq. apply lookup_lt_Some with q1. exact Hq. }
  inversion Hs as [|? ? Hs' _]; subst.
  split; [exact Hs'|]. split; [exact Hn|].
  split; [intros e He; apply Hbt; right; exact He|]. split; [exact Hbn|].
  split; [|split].
  - intros c' id' Hin. apply In_snoc in Hin as [Hin|Heq]; [|discriminate].
    destruct (Hadd c' id' Hin) as [Hx He]. split; [exact Hx|].
    intros e He'. apply He. right. exact He'.
  - intros c' id' Hin. apply In_snoc in Hin as [Hin|Heq].
    + destruct (Hres c' id' Hin) as [Hc Hna]. split; [exact Hc|].
      intros id'' Hin'. apply In_snoc in Hin' as [Hin'|Heq]; [exact (Hna id'' Hin')|discriminate].
    + injection Heq as -> ->. split; [apply (Hbt (t, c, id)); left; reflexivity|].
      intros id'' Hin'. apply In_snoc in Hin' as [Hin'|Heq]; [|discriminate].
      destruct (Hadd c id'' Hin') as [_ He]. exact (He (t, c, id) (or_introl eq_refl) eq_refl).
  - intros c' id' Hin. destruct (HN0 c' id' Hin) as [H|[Heq|H]].
    + left. apply In_snoc. left. exact H.
    + injection Heq as -> -> ->. left. apply In_snoc. right. reflexivity.
    + right. exact H.
Qed.

End Inv.

(** A drain of queue [k], from an empty slot, keeps the invariant, leaves
    the slot empty, and stops only when nothing in [k] is due. *)
Lemma drain_Inv (TC fuel k : nat) (N0 : list (nat * N)) (base : list Event) (w w' : World) :
  Inv k N0 base w -> mNewFinishedCoro w = 0%N -> drain TC fuel k w = Ok w' ->
  Inv k N0 base w' /\ mNewFinishedCoro w' = 0%N /\
  exists q, mExecuteQueues w' !! k = Some q /\ CheckUpdate q = false.
Proof.
  revert w. induction fuel as [|fuel IH]; intros w HI H0; simpl; [discriminate|].
  unfold GetQueue. destruct (mExecuteQueues w !! k) as [q|] eqn:Hq; bind_simpl; [|discriminate].
  destruct (CheckUpdate q) eqn:Hc.
  - destruct (Pop q) as [[[[t c] id] q']|] eqn:Hp; [|discriminate].
    destruct (ResumeWait TC id k c (set_queue k q' w)) as [w1|] eqn:Hr; bind_simpl; [|discriminate].
    destruct (StopNewFinishedCoro w1) as [w2|] eqn:Hs; bind_simpl; [|discriminate].
    intros Hd. apply (IH w2); [ | | exact Hd].
    + pose proof (ResumeWait_pres TC (Inv k N0 base) (Inv_ext k N0 base)
                    (fun id d ph cl w r w' H => AddWait_Inv k N0 base TC id d ph cl w w' r H)
                    _ _ _ _ _ Hr (Pop_Inv k N0 base w q q' t c id Hq Hp HI)) as HI1.
      apply ResumeWait_slot in Hr; [|exact H0].
      destruct (StopNewFinishedCoro_done _ _ _ Hr Hs) as (Hq2 & Ht2 & _).
      exact (Inv_ext k N0 base _ _ (eq_sym Hq2) (eq_sym Ht2) HI1).
    + apply ResumeWait_slot in Hr; [|exact H0].
      exact (proj2 (proj2 (StopNewFinishedCoro_done _ _ _ Hr Hs))).
  - intros Hw; inversion Hw; subst. split; [exact HI|]. split; [exact H0|]. exists q. auto.
Qed.

Lemma cursors_bound (q : TimeQueue N) (n : nat) :
  Forall (fun c => c < n) (cursors q) <->
  (forall e, In e (tq_timed q) -> e.1.2 < n) /\ (forall x, In x (tq_next q) -> x.1 < n).
Proof.
  unfold cursors. rewrite List.Forall_forall. split.
  - intros H. split; intros e He; apply H, in_app_iff; [left|right];
      apply in_map_iff; exists e; auto.
  - intros [H1 H2] c Hc. apply in_app_iff in Hc as [Hc|Hc];
      apply in_map_iff in Hc as (e & <- & He); auto.
Qed.

(** [Update] on queue [k] runs one drain from the merged queue. *)
Lemma Update_Inv (TC fuel ph cl : nat) (w w' : World) (q : TimeQueue N) :
  mExecuteQueues w !! TypesToIndex TC ph cl = Some q -> mNewFinishedCoro w = 0%N ->
  StronglySorted dle (tq_timed q) -> Forall (fun c => c < tq_seq q) (cursors q) ->
  (0 <= mClock w cl)%Z -> Update TC fuel ph cl w = Ok w' ->
  Inv (TypesToIndex TC ph cl) (tq_next q) (trace w) w' /\ mNewFinishedCoro w' = 0%N /\
  exists q', mExecuteQueues w' !! TypesToIndex TC ph cl = Some q' /\ CheckUpdate q' = false.
Proof.
  intros Hq H0 Hs Hb Hcl. apply cursors_bound in Hb as [Hbt Hbn].
  unfold Update, GetQueue. rewrite Hq. bind_simpl.
  apply drain_Inv; [|exact H0].
  exists (SetupUpdate (GetCurrentTime cl w) q), []. simpl.
  split; [apply list_lookup_insert_eq, lookup_lt_Some with q, Hq|].
  split; [symmetry; apply app_nil_r|].
  split; [apply merge_next_sorted, Hs|]. split; [exact Hcl|].
  split.
  { intros e He. apply merge_next_in in He as [He|(c & v & -> & Hx)]; [exact (Hbt e He)|].
    exact (Hbn (c, v) Hx). }
  split; [intros _ []|]. split; [intros c id []|]. split; [intros c id []|].
  intros c id Hx. right. apply merge_next_in. right. exists c, id. auto.
Qed.

End DrainFacts.

(** * Facts used by the further properties *)

Module ExtraFacts.
Import TQ TQFacts MgrFacts QueueFacts DrainFacts.

Lemma DestroyCoro_same (c : option Frame) (w w' : World) :
  DestroyCoro c w = Ok w' ->
  mCoroutines w' = mCoroutines w /\ mNextId w' = mNextId w /\
  mNewFinishedCoro w' = mNewFinishedCoro w /\ mAlive w' = mAlive w.
Proof. intros H. apply DestroyCoro_queues in H. rewrite H. destruct w; simpl; auto. Qed.

Lemma AddWait_entries (TC : nat) (id : N) (d : Z) (ph cl : nat) (w w' : World) (r : WaitRec) :
  AddWait TC id d ph cl w = Ok (r, w') ->
  mCoroutines w' = mCoroutines w /\ mNextId w' = mNextId w /\
  mNewFinishedCoro w' = mNewFinishedCoro w.
Proof.
  unfold AddWait, GetQueue. destruct (mExecuteQueues w !! TypesToIndex TC ph cl) as [q|];
    bind_simpl; [|discriminate].
  destruct (AddTimed _ id q). intros H; inversion H; auto.
Qed.

Lemma set_frame_entries (id : N) (f : Frame -> Frame) (w w' : World) :
  set_frame id f w = Ok w' ->
  mNextId w' = mNextId w /\
  (forall j, flags <$> mCoroutines w' !! j = flags <$> mCoroutines w !! j) /\
  (forall j, j <> id -> mCoroutines w' !! j = mCoroutines w !! j).
Proof.
  intros H. apply set_frame_ok in H as (e & fr & He & _ & ->). simpl.
  split; [reflexivity|]. split.
  - intros j. destruct (decide (j = id)) as [->|Hne].
    + rewrite lookup_insert_eq, He. reflexivity.
    + rewrite lookup_insert_ne by congruence. reflexivity.
  - intros j Hne. apply lookup_insert_ne. congruence.
Qed.

Section Run.
Variable TC : nat.

(** Running a body touches no flag and no other root. *)
Lemma run_entries (id : N) (p : Prog) (w w' : World) :
  run TC id p w = Ok w' ->
  mNextId w' = mNextId w /\
  (forall j, flags <$> mCoroutines w' !! j = flags <$> mCoroutines w !! j) /\
  (forall j, j <> id -> mCoroutines w' !! j = mCoroutines w !! j).
Proof.
  revert w. induction p as [v|ex|f p IH|d ph cl p IH]; intros w; simpl.
  - destruct (set_frame _ _ w) as [w1|] eqn:Hf; bind_simpl; [|discriminate].
    intros Ho. apply OnCoroutineFinished_ok in Ho as ->. exact (set_frame_entries _ _ _ _ Hf).
  - destruct (set_frame _ _ w) as [w1|] eqn:Hf; bind_simpl; [|discriminate].
    intros Ho. apply OnCoroutineFinished_ok in Ho as ->. exact (set_frame_entries _ _ _ _ Hf).
  - intros Hr. exact (IH _ Hr).
  - destruct (AddWait TC id d ph cl w) as [[r w1]|] eqn:Ha; bind_simpl; [|discriminate].
    intros Hf. apply AddWait_entries in Ha as (He & Hn & _).
    destruct (set_frame_entries _ _ _ _ Hf) as (H1 & H2 & H3).
    rewrite He, Hn in *. auto.
Qed.

(** A body that does not suspend completes inside [run] and fills the slot. *)
Lemma run_sync (id : N) (p : Prog) (w w' : World) :
  suspends p = false -> run TC id p w = Ok w' ->
  mNewFinishedCoro w' = id /\
  exists e fr, mCoroutines w' !! id = Some e /\ coro e = Some fr /\ fr_done fr = true.
Proof.
  revert w. induction p as [v|ex|f p IH|d ph cl p IH]; intros w Hs; simpl; try discriminate.
  - destruct (set_frame _ _ w) as [w1|] eqn:Hf; bind_simpl; [|discriminate].
    intros Ho. apply OnCoroutineFinished_ok in Ho as ->.
    apply set_frame_ok in Hf as (e & fr & _ & _ & ->). split; [reflexivity|].
    eexists _, _. simpl. rewrite lookup_insert_eq. auto.
  - destruct (set_frame _ _ w) as [w1|] eqn:Hf; bind_simpl; [|discriminate].
    intros Ho. apply OnCoroutineFinished_ok in Ho as ->.
    apply set_frame_ok in Hf as (e & fr & _ & _ & ->). split; [reflexivity|].
    eexists _, _. simpl. rewrite lookup_insert_eq. auto.
  - apply IH. exact Hs.
Qed.


End Run.

Lemma length_insert_timed {W : Type} (t : Z) (c : nat) (v : W) (o : list (Z * nat * W)) :
  length (insert_timed t c v o) = S (length o).
Proof.
  induction o as [|[[t' c'] v'] o IH]; simpl; [reflexivity|].
  destruct (Z.leb t' t); simpl; [rewrite IH|]; reflexivity.
Qed.

Lemma Size_AddTimed (t : Z) (v : N) (q : TimeQueue N) :
  Size (AddTimed t v q).2 = S (Size q).
Proof.
  unfold AddTimed, Size. destruct (Z.eqb t 0); simpl;
    rewrite ?length_app, ?length_insert_timed; simpl; lia.
Qed.

Lemma total_size_set_queue (k : nat) (x y : TimeQueue N) (w : World) :
  mExecuteQueues w !! k = Some y ->
  total_size (set_queue k x w) + Size y = total_size w + Size x.
Proof. intros Hy. unfold total_size, set_queue. simpl. exact (sum_insert Size _ k x y Hy). Qed.

Section Drain.
Variable TC : nat.

(** [Start]: the id it returns, the next id, the entry it leaves, and
    the run of the body from which the result comes. *)
Lemma Start_facts (p : Prog) (w w' : World) (id : N) :
  Start TC p w = Ok (id, w') ->
  id = mNextId w /\ mNextId w' = ((mNextId w + 1) mod u64_modulus)%N /\
  (forall j, j <> id -> mCoroutines w' !! j = mCoroutines w !! j) /\
  (exists e, mCoroutines w' !! id = Some e /\
     flags e = (true, running (default defaultEntry (mCoroutines w !! mNextId w)),
                      released (default defaultEntry (mCoroutines w !! mNextId w)))) /\
  exists w1, run TC id p w1 = Ok w'.
Proof.
  unfold Start. cbn [mCoroutines].
  destruct (DestroyCoro _ _) as [w1|] eqn:Hd; bind_simpl; [|discriminate].
  destruct (run TC (mNextId w) p _) as [w2|] eqn:Hr; bind_simpl; [|discriminate].
  intros H; injection H as <- <-.
  apply DestroyCoro_same in Hd as (Hc & Hn & _ & _). simpl in Hc, Hn.
  pose proof Hr as Hr'. apply run_entries in Hr as (Hn2 & Hf & Ho). simpl in Hn2, Hf, Ho.
  split; [reflexivity|]. split; [rewrite Hn2, Hn; reflexivity|]. split.
  { intros j Hne. rewrite Ho by exact Hne. rewrite lookup_insert_ne by congruence.
    rewrite Hc. reflexivity. }
  split; [|eexists; exact Hr'].
  specialize (Hf (mNextId w)). rewrite lookup_insert_eq in Hf.
  destruct (mCoroutines w2 !! mNextId w) as [e|]; [|discriminate].
  exists e. split; [reflexivity|]. apply (f_equal (default (false, false, false))) in Hf.
  simpl in Hf. rewrite Hf.
  unfold flags. simpl. destruct (mCoroutines w !! mNextId w); reflexivity.
Qed.

End Drain.

(** Removing a cursor that is not held keeps a list of entries. *)
Lemma filter_timed_keep {W : Type} (c : nat) (l : list (Z * nat * W)) :
  (forall e, In e l -> e.1.2 <> c) ->
  List.filter (fun e => negb (Nat.eqb e.1.2 c)) l = l.
Proof.
  induction l as [|e l IH]; intros Hl; simpl; [reflexivity|].
  destruct (Nat.eqb_spec e.1.2 c) as [Heq|_]; [exfalso; exact (Hl e (or_introl eq_refl) Heq)|].
  simpl. rewrite IH; [reflexivity|]. intros e' He'. apply Hl. right. exact He'.
Qed.

Lemma filter_next_keep {W : Type} (c : nat) (l : list (nat * W)) :
  (forall e, In e l -> e.1 <> c) ->
  List.filter (fun e => negb (Nat.eqb e.1 c)) l = l.
Proof.
  induction l as [|e l IH]; intros Hl; simpl; [reflexivity|].
  destruct (Nat.eqb_spec e.1 c) as [Heq|_]; [exfalso; exact (Hl e (or_introl eq_refl) Heq)|].
  simpl. rewrite IH; [reflexivity|]. intros e' He'. apply Hl. right. exact He'.
Qed.

Lemma filter_insert_timed {W : Type} (t : Z) (c : nat) (v : W) (l : list (Z * nat * W)) :
  (forall e, In e l -> e.1.2 <> c) ->
  List.filter (fun e => negb (Nat.eqb e.1.2 c)) (insert_timed t c v l) = l.
Proof.
  induction l as [|[[t' c'] v'] l IH]; intros Hl; simpl.
  - rewrite Nat.eqb_refl. reflexivity.
  - destruct (Z.leb t' t); simpl.
    + destruct (Nat.eqb_spec c' c) as [Heq|_].
      * exfalso. exact (Hl (t', c', v') (or_introl eq_refl) Heq).
      * simpl. rewrite IH; [reflexivity|]. intros e He. apply Hl. right. exact He.
    + rewrite Nat.eqb_refl. simpl.
      destruct (Nat.eqb_spec c' c) as [Heq|_]; [exfalso; exact (Hl _ (or_introl eq_refl) Heq)|].
      simpl. rewrite filter_timed_keep; [reflexivity|]. intros e He. apply Hl. right. exact He.
Qed.

(** [Remove] of the cursor returned by [AddTimed] undoes it, apart
    from the cursor counter, when every held cursor is below the counter. *)
Lemma Remove_AddTimed (t : Z) (v : N) (q : TimeQueue N) :
  Forall (fun c => c < tq_seq q) (cursors q) ->
  Remove (AddTimed t v q).1 (AddTimed t v q).2 =
    mkTimeQueue (tq_timed q) (tq_next q) (tq_now q) (S (tq_seq q)).
Proof.
  intros Hc. apply cursors_bound in Hc as [H1 H2].
  assert (Ht : forall e, In e (tq_timed q) -> e.1.2 <> tq_seq q)
    by (intros e He; specialize (H1 e He); lia).
  assert (Hn : forall e, In e (tq_next q) -> e.1 <> tq_seq q)
    by (intros e He; specialize (H2 e He); lia).
  unfold AddTimed, Remove. destruct (Z.eqb t 0); simpl.
  - rewrite List.filter_app. simpl. rewrite Nat.eqb_refl. simpl. rewrite app_nil_r.
    rewrite filter_timed_keep by exact Ht. rewrite filter_next_keep by exact Hn. reflexivity.
  - rewrite filter_insert_timed by exact Ht. rewrite filter_next_keep by exact Hn. reflexivity.
Qed.

(** The cursor returned by [AddTimed] is held by the new queue. *)
Lemma AddTimed_cursor (t : Z) (v : N) (q : TimeQueue N) :
  (AddTimed t v q).1 = tq_seq q /\ In (tq_seq q) (cursors (AddTimed t v q).2).
Proof.
  unfold AddTimed, cursors. destruct (Z.eqb t 0); simpl; split; try reflexivity;
    apply in_app_iff.
  - right. rewrite map_app. apply in_app_iff. right. left. reflexivity.
  - left. apply in_map_iff. exists (t, tq_seq q, v). split; [reflexivity|].
    apply insert_timed_in. left. reflexivity.
Qed.

End ExtraFacts.

(** * Facts about [Update] of one queue, for any resumed code *)

Module UpdFacts.
Import TQ TQFacts DrainFacts QueueUpdate.

Section Replay.
Context {W : Type}.

(** Replaying a log on a queue. *)
Inductive Replay : TimeQueue W -> list (Log W) -> TimeQueue W -> Prop :=
| RNil q : Replay q [] q
| RSetup q now l q' : Replay (SetupUpdate now q) l q' -> Replay q (LUpdate now [] :: l) q'
| RPop q q1 t c v l q' :
    Pop q = Some ((t, c, v), q1) -> Replay q1 l q' -> Replay q (LPop t c v :: l) q'
| RAdd q t v l q' :
    Replay (AddTimed t v q).2 l q' -> Replay q (LAdd t (AddTimed t v q).1 v :: l) q'
| RRem q c l q' : Replay (Remove c q) l q' -> Replay q (LRem c :: l) q'.

Definition setups_ok (l : list (Log W)) : Prop :=
  forall now, In (LUpdate now []) l -> (0 <= now)%Z.

(** The queue invariant: ordered deadlines, iterators below the counter. *)
Definition QInv (q : TimeQueue W) : Prop :=
  StronglySorted dle (tq_timed q) /\
  (forall e, In e (tq_timed q) -> e.1.2 < tq_seq q) /\
  (forall x, In x (tq_next q) -> x.1 < tq_seq q).

Lemma Replay_app (q q'' : TimeQueue W) (l1 l2 : list (Log W)) :
  Replay q (l1 ++ l2) q'' <-> exists q', Replay q l1 q' /\ Replay q' l2 q''.
Proof.
  split.
  - revert q. induction l1 as [|x l1 IH]; intros q H; simpl in H.
    + exists q. split; [constructor|exact H].
    + inversion H; subst;
        match goal with Hr : Replay _ (l1 ++ l2) _ |- _ =>
          destruct (IH _ Hr) as (q' & H1 & H2) end;
        exists q'; (split; [|exact H2]).
      * apply RSetup. exact H1.
      * eapply RPop; eassumption.
      * apply RAdd. exact H1.
      * apply RRem. exact H1.
  - intros (q' & H1 & H2). induction H1; simpl; [exact H2|..].
    + apply RSetup. auto.
    + eapply RPop; eauto.
    + apply RAdd. auto.
    + apply RRem. auto.
Qed.

Lemma Pop_timed (q q1 : TimeQueue W) (e : Z * nat * W) :
  Pop q = Some (e, q1) ->
  tq_timed q = e :: tq_timed q1 /\ tq_next q1 = tq_next q /\
  tq_now q1 = tq_now q /\ tq_seq q1 = tq_seq q.
Proof.
  unfold Pop. destruct (tq_timed q) as [|e' l] eqn:Ht; [discriminate|].
  intros H; injection H as <- <-. simpl. auto.
Qed.

Lemma AddTimed_fst (t : Z) (v : W) (q : TimeQueue W) : (AddTimed t v q).1 = tq_seq q.
Proof. unfold AddTimed. destruct (Z.eqb t 0); reflexivity. Qed.

Lemma AddTimed_snd (t : Z) (v : W) (q : TimeQueue W) :
  (t = 0%Z /\ (AddTimed t v q).2 =
     mkTimeQueue (tq_timed q) (tq_next q ++ [(tq_seq q, v)]) (tq_now q) (S (tq_seq q))) \/
  (t <> 0%Z /\ (AddTimed t v q).2 =
     mkTimeQueue (insert_timed t (tq_seq q) v (tq_timed q)) (tq_next q) (tq_now q) (S (tq_seq q))).
Proof.
  unfold AddTimed. destruct (Z.eqb_spec t 0); [left|right]; auto.
Qed.

Lemma StronglySorted_filter {A} (R : A -> A -> Prop) (f : A -> bool) (l : list A) :
  StronglySorted R l -> StronglySorted R (List.filter f l).
Proof.
  induction l as [|a l IH]; intros H; simpl; [constructor|].
  inversion H as [|? ? Hs Hall]; subst. destruct (f a); [|auto].
  constructor; [auto|]. apply List.Forall_forall. intros x Hx.
  apply List.filter_In in Hx as [Hx _]. exact (proj1 (List.Forall_forall _ _) Hall x Hx).
Qed.

Lemma Replay_QInv (q q' : TimeQueue W) (l : list (Log W)) :
  Replay q l q' -> QInv q -> QInv q'.
Proof.
  induction 1 as [q|q now l q' _ IH|q q1 t c v l q' Hp _ IH|q t v l q' _ IH|q c l q' _ IH];
    intros (Hs & Ht & Hn); [split; auto| | | |]; apply IH; unfold QInv.
  - unfold SetupUpdate. split; [|split]; simpl.
    + apply merge_next_sorted, Hs.
    + intros e He. apply merge_next_in in He as [He|(c & v & -> & Hx)]; [auto|].
      exact (Hn (c, v) Hx).
    + intros _ [].
  - destruct (Pop_timed q q1 _ Hp) as (Heq & Hn1 & _ & Hs1). rewrite Heq in Hs, Ht.
    inversion Hs; subst. split; [assumption|split].
    + intros e He. rewrite Hs1. apply Ht. right. exact He.
    + intros x Hx. rewrite Hs1. rewrite Hn1 in Hx. auto.
  - destruct (AddTimed_snd t v q) as [[_ ->]|[_ ->]]; simpl.
    + split; [exact Hs|split].
      * intros e He. specialize (Ht e He). lia.
      * intros x Hx. apply in_app_iff in Hx as [Hx|[<-|[]]]; [specialize (Hn x Hx); lia|simpl; lia].
    + split; [apply insert_timed_sorted, Hs|split].
      * intros e He. apply insert_timed_in in He as [->|He]; [simpl; lia|specialize (Ht e He); lia].
      * intros x Hx. specialize (Hn x Hx). lia.
  - unfold Remove. simpl. split; [apply StronglySorted_filter, Hs|split].
    + intros e He. apply List.filter_In in He as [He _]. auto.
    + intros x Hx. apply List.filter_In in Hx as [Hx _]. auto.
Qed.

Lemma Replay_now (q q' : TimeQueue W) (l : list (Log W)) :
  Replay q l q' -> setups_ok l -> (0 <= tq_now q)%Z -> (0 <= tq_now q')%Z.
Proof.
  induction 1 as [q|q now l q' _ IH|q q1 t c v l q' Hp _ IH|q t v l q' _ IH|q c l q' _ IH];
    intros Hok Hq; auto.
  - apply IH; [intros n Hn; apply Hok; right; exact Hn|]. simpl. apply Hok. left. reflexivity.
  - apply IH; [intros n Hn; apply Hok; right; exact Hn|].
    destruct (Pop_timed q q1 _ Hp) as (_ & _ & -> & _). exact Hq.
  - apply IH; [intros n Hn; apply Hok; right; exact Hn|].
    destruct (AddTimed_snd t v q) as [[_ ->]|[_ ->]]; exact Hq.
  - apply IH; [intros n Hn; apply Hok; right; exact Hn|]. exact Hq.
Qed.

(** A wait with deadline 0 in an ordered queue whose snapshot is not
    negative is due. *)
Lemma zero_due (q : TimeQueue W) (c : nat) (v : W) :
  StronglySorted dle (tq_timed q) -> (0 <= tq_now q)%Z -> In (0%Z, c, v) (tq_timed q) ->
  CheckUpdate q = true.
Proof.
  unfold CheckUpdate. destruct (tq_timed q) as [|[[t c'] v'] l]; [intros _ _ []|].
  intros Hs Hn Hin. apply Z.leb_le.
  destruct Hin as [Heq|Hin]; [injection Heq as -> _ _; exact Hn|].
  inversion Hs as [|? ? _ Hall]; subst.
  pose proof (proj1 (List.Forall_forall _ _) Hall _ Hin) as Hd. unfold dle in Hd. simpl in Hd. lia.
Qed.

(** A deadline-0 entry of the ordered part stays until it is popped or
    removed. *)
Lemma Replay_track_timed (q q' : TimeQueue W) (l : list (Log W)) (c : nat) (v : W) :
  Replay q l q' -> In (0%Z, c, v) (tq_timed q) ->
  In (0%Z, c, v) (tq_timed q') \/ In (LPop 0%Z c v) l \/ In (LRem c) l.
Proof.
  induction 1 as [q|q now l q' _ IH|q q1 t c' v' l q' Hp _ IH|q t v' l q' _ IH|q c' l q' _ IH];
    intros Hin.
  - left. exact Hin.
  - assert (Hin' : In (0%Z, c, v) (tq_timed (SetupUpdate now q)))
      by (unfold SetupUpdate; simpl; apply merge_next_in; left; exact Hin).
    destruct (IH Hin') as [H|[H|H]]; [left; exact H|right; left; right; exact H|right; right; right; exact H].
  - destruct (Pop_timed q q1 _ Hp) as (Heq & _). rewrite Heq in Hin.
    destruct Hin as [Heq'|Hin].
    + injection Heq' as -> -> ->. right. left. left. reflexivity.
    + destruct (IH Hin) as [H|[H|H]]; [left; exact H|right; left; right; exact H|right; right; right; exact H].
  - assert (Hin' : In (0%Z, c, v) (tq_timed (AddTimed t v' q).2)).
    { destruct (AddTimed_snd t v' q) as [[_ ->]|[_ ->]]; simpl; [exact Hin|].
      apply insert_timed_in. right. exact Hin. }
    destruct (IH Hin') as [H|[H|H]]; [left; exact H|right; left; right; exact H|right; right; right; exact H].
  - destruct (Nat.eqb_spec c c') as [->|Hne]; [right; right; left; reflexivity|].
    assert (Hin' : In (0%Z, c, v) (tq_timed (Remove c' q))).
    { unfold Remove. simpl. apply List.filter_In. split; [exact Hin|].
      simpl. destruct (Nat.eqb_spec c c'); [contradiction|reflexivity]. }
    destruct (IH Hin') as [H|[H|H]]; [left; exact H|right; left; right; exact H|right; right; right; exact H].
Qed.

(** A zero-delay wait, held in [tq_next] or already due, stays until it
    is popped or removed. *)
Lemma Replay_track (q q' : TimeQueue W) (l : list (Log W)) (c : nat) (v : W) :
  Replay q l q' -> In (c, v) (tq_next q) \/ In (0%Z, c, v) (tq_timed q) ->
  (In (c, v) (tq_next q') \/ In (0%Z, c, v) (tq_timed q')) \/ In (LPop 0%Z c v) l \/ In (LRem c) l.
Proof.
  induction 1 as [q|q now l q' _ IH|q q1 t c' v' l q' Hp _ IH|q t v' l q' _ IH|q c' l q' _ IH];
    intros Hin.
  - left. exact Hin.
  - assert (Hin' : In (c, v) (tq_next (SetupUpdate now q)) \/
                   In (0%Z, c, v) (tq_timed (SetupUpdate now q))).
    { right. unfold SetupUpdate. simpl. apply merge_next_in.
      destruct Hin as [Hin|Hin]; [right; exists c, v; auto|left; exact Hin]. }
    destruct (IH Hin') as [H|[H|H]]; [left; exact H|right; left; right; exact H|right; right; right; exact H].
  - destruct (Pop_timed q q1 _ Hp) as (Heq & Hn1 & _). rewrite Heq in Hin. rewrite <- Hn1 in Hin.
    destruct Hin as [Hin|[Heq'|Hin]].
    + destruct (IH (or_introl Hin)) as [H|[H|H]];
        [left; exact H|right; left; right; exact H|right; right; right; exact H].
    + injection Heq' as -> -> ->. right. left. left. reflexivity.
    + destruct (IH (or_intror Hin)) as [H|[H|H]];
        [left; exact H|right; left; right; exact H|right; right; right; exact H].
  - assert (Hin' : In (c, v) (tq_next (AddTimed t v' q).2) \/
                   In (0%Z, c, v) (tq_timed (AddTimed t v' q).2)).
    { destruct (AddTimed_snd t v' q) as [[_ ->]|[_ ->]]; simpl;
        (destruct Hin as [Hin|Hin]; [left|right]).
      - apply in_app_iff. left. exact Hin.
      - exact Hin.
      - exact Hin.
      - apply insert_timed_in. right. exact Hin. }
    destruct (IH Hin') as [H|[H|H]]; [left; exact H|right; left; right; exact H|right; right; right; exact H].
  - destruct (Nat.eqb_spec c c') as [->|Hne]; [right; right; left; reflexivity|].
    assert (Hin' : In (c, v) (tq_next (Remove c' q)) \/ In (0%Z, c, v) (tq_timed (Remove c' q))).
    { unfold Remove. simpl. destruct Hin as [Hin|Hin]; [left|right]; apply List.filter_In;
        (split; [exact Hin|]); simpl; destruct (Nat.eqb_spec c c'); [contradiction|reflexivity|contradiction|reflexivity]. }
    destruct (IH Hin') as [H|[H|H]]; [left; exact H|right; left; right; exact H|right; right; right; exact H].
Qed.

(** An iterator not yet in the ordered part, and below the counter, is
    popped only after a [SetupUpdate]. *)
Lemma Replay_fresh (q q' : TimeQueue W) (l : list (Log W)) (c : nat) :
  Replay q l q' -> c < tq_seq q -> ~ In c (map (fun e => e.1.2) (tq_timed q)) ->
  forall l1 l2 t v, l = l1 ++ LPop t c v :: l2 -> exists now, In (LUpdate now []) l1.
Proof.
  induction 1 as [q|q now l q' _ IH|q q1 t' c' v' l q' Hp _ IH|q t' v' l q' _ IH|q c' l q' _ IH];
    intros Hc Hn l1 l2 t v Hl.
  - destruct l1; discriminate.
  - destruct l1 as [|x l1]; [discriminate|]. injection Hl as <- _. exists now. left. reflexivity.
  - destruct (Pop_timed q q1 _ Hp) as (Heq & _ & _ & Hs1).
    destruct l1 as [|x l1].
    + injection Hl as <- <- <- _. exfalso. apply Hn. rewrite Heq. left. reflexivity.
    + injection Hl as _ Hl.
      destruct (IH ltac:(rewrite Hs1; exact Hc)
                   ltac:(intros Hi; apply Hn; rewrite Heq; right; exact Hi) l1 l2 t v Hl)
        as (now & Hnow).
      exists now. right. exact Hnow.
  - destruct l1 as [|x l1]; [discriminate|]. injection Hl as _ Hl.
    assert (Hc' : c < tq_seq (AddTimed t' v' q).2)
      by (destruct (AddTimed_snd t' v' q) as [[_ ->]|[_ ->]]; simpl; lia).
    assert (Hn' : ~ In c (map (fun e => e.1.2) (tq_timed (AddTimed t' v' q).2))).
    { destruct (AddTimed_snd t' v' q) as [[_ ->]|[_ ->]]; simpl; [exact Hn|].
      intros Hi. apply in_map_iff in Hi as (e & He & Hi).
      apply insert_timed_in in Hi as [->|Hi]; [simpl in He; lia|].
      apply Hn. apply in_map_iff. exists e. auto. }
    destruct (IH Hc' Hn' l1 l2 t v Hl) as (now & Hnow). exists now. right. exact Hnow.
  - destruct l1 as [|x l1]; [discriminate|]. injection Hl as _ Hl.
    assert (Hn' : ~ In c (map (fun e => e.1.2) (tq_timed (Remove c' q)))).
    { unfold Remove. simpl. intros Hi. apply in_map_iff in Hi as (e & He & Hi).
      apply List.filter_In in Hi as [Hi _]. apply Hn. apply in_map_iff. exists e. auto. }
    destruct (IH Hc Hn' l1 l2 t v Hl) as (now & Hnow). exists now. right. exact Hnow.
Qed.

Lemma Replay_seq (q q' : TimeQueue W) (l : list (Log W)) :
  Replay q l q' -> tq_seq q <= tq_seq q'.
Proof.
  induction 1 as [q|q now l q' _ IH|q q1 t c v l q' Hp _ IH|q t v l q' _ IH|q c l q' _ IH]; auto.
  - destruct (Pop_timed q q1 _ Hp) as (_ & _ & _ & Hs1). lia.
  - destruct (AddTimed_snd t v q) as [[_ Ha]|[_ Ha]]; rewrite Ha in IH; simpl in IH; lia.
Qed.

(** A popped iterator is below the counter of every later queue. *)
Lemma Replay_popped (q q' : TimeQueue W) (l : list (Log W)) (t : Z) (c : nat) (v : W) :
  Replay q l q' -> QInv q -> In (LPop t c v) l -> c < tq_seq q'.
Proof.
  induction 1 as [q|q now l q' Hr IH|q q1 t' c' v' l q' Hp Hr IH|q t' v' l q' Hr IH|q c' l q' Hr IH];
    intros Hi Hin; [destruct Hin| | | |].
  - destruct Hin as [|Hin]; [discriminate|]. apply IH; [|exact Hin].
    apply (Replay_QInv q _ [LUpdate now []]); [|exact Hi]. repeat constructor.
  - assert (Hi1 : QInv q1) by (apply (Replay_QInv q _ [LPop t' c' v']); [econstructor; [exact Hp|constructor]|exact Hi]).
    destruct Hin as [Heq|Hin]; [|exact (IH Hi1 Hin)].
    injection Heq as -> -> ->.
    destruct (Pop_timed q q1 _ Hp) as (Heq & _ & _ & Hs1).
    destruct Hi as (_ & Ht & _). specialize (Ht (t, c, v)). rewrite Heq in Ht.
    specialize (Ht (or_introl eq_refl)). simpl in Ht. pose proof (Replay_seq _ _ _ Hr). lia.
  - destruct Hin as [|Hin]; [discriminate|]. apply IH; [|exact Hin].
    apply (Replay_QInv q _ [LAdd t' (AddTimed t' v' q).1 v']); [repeat constructor|exact Hi].
  - destruct Hin as [|Hin]; [discriminate|]. apply IH; [|exact Hin].
    apply (Replay_QInv q _ [LRem c']); [repeat constructor|exact Hi].
Qed.


(** Where the entries of a later queue come from. *)
Lemma Replay_origin (q q' : TimeQueue W) (l : list (Log W)) :
  Replay q l q' ->
  (forall t c v, In (t, c, v) (tq_timed q') ->
     In (t, c, v) (tq_timed q) \/ (t = 0%Z /\ In (c, v) (tq_next q)) \/
     exists t0, In (LAdd t0 c v) l /\ (t = t0 \/ t = 0%Z)) /\
  (forall c v, In (c, v) (tq_next q') -> In (c, v) (tq_next q) \/ In (LAdd 0%Z c v) l).
Proof.
  induction 1 as [q|q now l q' _ IH|q q1 t' c' v' l q' Hp _ IH|q t' v' l q' _ IH|q c' l q' _ IH];
    [split; auto|..]; destruct IH as [IHt IHn]; split.
  - intros t c v H. destruct (IHt t c v H) as [H1|[(-> & H1)|(t0 & H1 & H2)]].
    + unfold SetupUpdate in H1; simpl in H1.
      apply merge_next_in in H1 as [H1|(c1 & v1 & Heq & H1)]; [left; exact H1|].
      injection Heq as E1 E2 E3; subst. right; left. auto.
    + simpl in H1. destruct H1.
    + right; right. exists t0. split; [right; exact H1|exact H2].
  - intros c v H. destruct (IHn c v H) as [H1|H1]; [simpl in H1; destruct H1|].
    right; right. exact H1.
  - destruct (Pop_timed q q1 _ Hp) as (Heq & Hn1 & _).
    intros t c v H. destruct (IHt t c v H) as [H1|[(-> & H1)|(t0 & H1 & H2)]].
    + left. rewrite Heq. right. exact H1.
    + right; left. rewrite <- Hn1. auto.
    + right; right. exists t0. split; [right; exact H1|exact H2].
  - destruct (Pop_timed q q1 _ Hp) as (Heq & Hn1 & _).
    intros c v H. destruct (IHn c v H) as [H1|H1]; [left; rewrite <- Hn1; exact H1|].
    right; right. exact H1.
  - intros t c v H. destruct (IHt t c v H) as [H1|[(-> & H1)|(t0 & H1 & H2)]].
    + destruct (AddTimed_snd t' v' q) as [[Ht0 Ha]|[Ht0 Ha]]; rewrite Ha in H1; simpl in H1.
      * left; exact H1.
      * apply insert_timed_in in H1 as [Heq|H1]; [|left; exact H1].
        injection Heq as E1 E2 E3; subst. right; right. eexists.
        split; [left; rewrite AddTimed_fst; reflexivity|left; reflexivity].
    + destruct (AddTimed_snd t' v' q) as [[Ht0 Ha]|[Ht0 Ha]]; rewrite Ha in H1; simpl in H1.
      * apply in_app_iff in H1 as [H1|[Heq|[]]]; [right; left; auto|].
        injection Heq as E1 E2; subst. right; right. exists 0%Z.
        split; [left; rewrite AddTimed_fst; reflexivity|right; reflexivity].
      * right; left. auto.
    + right; right. exists t0. split; [right; exact H1|exact H2].
  - intros c v H. destruct (IHn c v H) as [H1|H1]; [|right; right; exact H1].
    destruct (AddTimed_snd t' v' q) as [[Ht0 Ha]|[Ht0 Ha]]; rewrite Ha in H1; simpl in H1.
    + apply in_app_iff in H1 as [H1|[Heq|[]]]; [left; exact H1|].
      injection Heq as E1 E2; subst. right. left. rewrite AddTimed_fst. reflexivity.
    + left; exact H1.
  - intros t c v H. destruct (IHt t c v H) as [H1|[(-> & H1)|(t0 & H1 & H2)]].
    + unfold Remove in H1; simpl in H1. apply List.filter_In in H1 as [H1 _]. left; exact H1.
    + unfold Remove in H1; simpl in H1. apply List.filter_In in H1 as [H1 _]. right; left; auto.
    + right; right. exists t0. split; [right; exact H1|exact H2].
  - intros c v H. destruct (IHn c v H) as [H1|H1]; [|right; right; exact H1].
    unfold Remove in H1; simpl in H1. apply List.filter_In in H1 as [H1 _]. left; exact H1.
Qed.

(** Every added wait gets an iterator at or above the counter. *)
Lemma Replay_add_ge (q q' : TimeQueue W) (l : list (Log W)) :
  Replay q l q' -> forall t c v, In (LAdd t c v) l -> tq_seq q <= c.
Proof.
  induction 1 as [q|q now l q' _ IH|q q1 t' c' v' l q' Hp _ IH|q t' v' l q' Hr IH|q c' l q' _ IH];
    intros t c v Hin; [destruct Hin| | | |].
  - destruct Hin as [Heq|Hin]; [discriminate|]. exact (IH t c v Hin).
  - destruct Hin as [Heq|Hin]; [discriminate|].
    destruct (Pop_timed q q1 _ Hp) as (_ & _ & _ & Hs1). rewrite <- Hs1. exact (IH t c v Hin).
  - destruct Hin as [Heq|Hin].
    + injection Heq as E1 E2 E3. rewrite <- E2, AddTimed_fst. lia.
    + specialize (IH t c v Hin).
      destruct (AddTimed_snd t' v' q) as [[_ Ha]|[_ Ha]]; rewrite Ha in IH; simpl in IH; lia.
  - destruct Hin as [Heq|Hin]; [discriminate|]. exact (IH t c v Hin).
Qed.

(** Two adds never share an iterator. *)
Lemma Replay_add_unique (q q' : TimeQueue W) (l : list (Log W)) :
  Replay q l q' -> forall t c v t' v', In (LAdd t c v) l -> In (LAdd t' c v') l -> t = t' /\ v = v'.
Proof.
  induction 1 as [q|q now l q' _ IH|q q1 t1 c1 v1 l q' Hp _ IH|q t1 v1 l q' Hr IH|q c1 l q' _ IH];
    intros t c v t' v' H1 H2; [destruct H1| | | |].
  - destruct H1 as [|H1]; [discriminate|]. destruct H2 as [|H2]; [discriminate|]. eauto.
  - destruct H1 as [|H1]; [discriminate|]. destruct H2 as [|H2]; [discriminate|]. eauto.
  - pose proof (Replay_add_ge _ _ _ Hr) as Hge.
    assert (Hs : tq_seq (AddTimed t1 v1 q).2 = S (tq_seq q))
      by (destruct (AddTimed_snd t1 v1 q) as [[_ ->]|[_ ->]]; reflexivity).
    destruct H1 as [E1|H1]; destruct H2 as [E2|H2].
    + rewrite E1 in E2. inversion E2. auto.
    + injection E1 as _ E1 _. specialize (Hge _ _ _ H2). rewrite Hs in Hge. rewrite AddTimed_fst in E1. lia.
    + injection E2 as _ E2 _. specialize (Hge _ _ _ H1). rewrite Hs in Hge. rewrite AddTimed_fst in E2. lia.
    + eauto.
  - destruct H1 as [|H1]; [discriminate|]. destruct H2 as [|H2]; [discriminate|]. eauto.
Qed.

Lemma Replay_cons_add (q q' : TimeQueue W) (t : Z) (c : nat) (v : W) (l : list (Log W)) :
  Replay q (LAdd t c v :: l) q' -> c = tq_seq q /\ Replay (AddTimed t v q).2 l q'.
Proof.
  intros H. inversion H; subst. split; [apply AddTimed_fst|assumption].
Qed.

Lemma Replay_cons_pop (q q' : TimeQueue W) (t : Z) (c : nat) (v : W) (l : list (Log W)) :
  Replay q (LPop t c v :: l) q' -> exists q1, Pop q = Some ((t, c, v), q1) /\ Replay q1 l q'.
Proof.
  intros H. inversion H; subst. eauto.
Qed.

(** A wait popped after an add of deadline 0 with the same iterator is
    popped with deadline 0. *)
Lemma Replay_pop_zero (q q' : TimeQueue W) (l1 l2 : list (Log W)) (t : Z) (c : nat) (v v0 : W) :
  Replay q (l1 ++ LPop t c v :: l2) q' -> QInv q -> In (LAdd 0%Z c v0) l1 -> t = 0%Z.
Proof.
  intros H Hi Ha. apply Replay_app in H as (qk & H1 & H2).
  apply Replay_cons_pop in H2 as (q1 & Hp & _).
  destruct (Pop_timed _ _ _ Hp) as (Heq & _).
  assert (Hin : In (t, c, v) (tq_timed qk)) by (rewrite Heq; left; reflexivity).
  pose proof (Replay_add_ge _ _ _ H1 _ _ _ Ha) as Hge.
  destruct (proj1 (Replay_origin _ _ _ H1) t c v Hin) as [H3|[(-> & _)|(t0 & H3 & H4)]].
  - destruct Hi as (_ & Ht & _). specialize (Ht _ H3). simpl in Ht. lia.
  - reflexivity.
  - destruct (Replay_add_unique _ _ _ H1 _ _ _ _ _ Ha H3) as [<- _].
    destruct H4; assumption.
Qed.

(** No wait added after a pop has the popped iterator. *)
Lemma Replay_add_after_pop (q q' : TimeQueue W) (l1 l2 : list (Log W)) (t t0 : Z) (c : nat) (v v0 : W) :
  Replay q (l1 ++ LPop t c v :: l2) q' -> QInv q -> ~ In (LAdd t0 c v0) l2.
Proof.
  intros H Hi Ha. apply Replay_app in H as (qk & H1 & H2).
  pose proof (Replay_QInv _ _ _ H1 Hi) as (_ & Ht & _).
  apply Replay_cons_pop in H2 as (q1 & Hp & H3).
  destruct (Pop_timed _ _ _ Hp) as (Heq & _ & _ & Hs1).
  specialize (Ht (t, c, v)). rewrite Heq in Ht. specialize (Ht (or_introl eq_refl)). simpl in Ht.
  pose proof (Replay_add_ge _ _ _ H3 _ _ _ Ha). lia.
Qed.

End Replay.

Lemma flat_app {W} (l1 l2 : list (Log W)) : flat (l1 ++ l2) = flat l1 ++ flat l2.
Proof. unfold flat. apply flat_map_app. Qed.

Lemma flat_update {W} (now : Z) (l r : list (Log W)) :
  flat (LUpdate now l :: r) = LUpdate now [] :: flat l ++ flat r.
Proof.
  unfold flat. simpl.
  assert (E : forall l0 : list (Log W), (fix go (l : list (Log W)) : list (Log W) :=
    match l with [] => [] | y :: r => flat_entry y ++ go r end) l0 = flat_map flat_entry l0)
    by (induction l0 as [|y l0 IH]; simpl; [reflexivity|]; rewrite IH; reflexivity).
  rewrite E. reflexivity.
Qed.

Section Run.
Context {W St : Type}.
Variable clock : St -> Z.
Variable resume : St -> Z * nat * W -> Code W St.
Hypothesis clock_nonneg : forall s, (0 <= clock s)%Z.

Definition zero_below (B : nat) (q : TimeQueue W) : Prop :=
  forall c v, In (0%Z, c, v) (tq_timed q) -> c < B.

Lemma exec_Replay (upd : TimeQueue W -> St -> option (TimeQueue W * St * list (Log W))) :
  (forall q s q' s' l, upd q s = Some (q', s', l) -> Replay q (flat l) q' /\ setups_ok (flat l)) ->
  forall k q q' s' l, exec upd k q = Some (q', s', l) -> Replay q (flat l) q' /\ setups_ok (flat l).
Proof.
  intros Hu. induction k as [s|t v k IH|c k IH|s k IH]; intros q q' s' l H; simpl in H.
  - injection H as <- <- <-. split; [constructor|intros ? []].
  - pose proof (RAdd q t v) as Ha.
    destruct (AddTimed t v q) as [c q1] eqn:Hq. simpl in Ha.
    destruct (exec upd (k c) q1) as [[[q2 s2] l2]|] eqn:He; [|simpl in H; discriminate]; simpl in H.
    injection H as <- <- <-. destruct (IH c _ _ _ _ He) as [H1 H2].
    split; [exact (Ha _ _ H1)|]. intros now [Hx|Hx]; [discriminate|exact (H2 now Hx)].
  - destruct (exec upd k (Remove c q)) as [[[q2 s2] l2]|] eqn:He; [|simpl in H; discriminate]; simpl in H.
    injection H as <- <- <-. destruct (IH _ _ _ _ He) as [H1 H2].
    split; [constructor; exact H1|]. intros now [Hx|Hx]; [discriminate|exact (H2 now Hx)].
  - destruct (upd q s) as [[[q1 s1] l1]|] eqn:Hq; [|simpl in H; discriminate]; simpl in H.
    destruct (exec upd (k s1) q1) as [[[q2 s2] l2]|] eqn:He; [|simpl in H; discriminate]; simpl in H.
    injection H as <- <- <-. destruct (Hu _ _ _ _ _ Hq) as [H1 H2].
    destruct (IH s1 _ _ _ _ He) as [H3 H4]. rewrite flat_app. split.
    + apply Replay_app. exists q1. auto.
    + intros now Hx. apply in_app_iff in Hx as [Hx|Hx]; auto.
Qed.

(** The code of a resume makes no pop of its own. *)
Lemma exec_no_pop (upd : TimeQueue W -> St -> option (TimeQueue W * St * list (Log W))) :
  (forall q s q' s' l, upd q s = Some (q', s', l) -> forall t c v, ~ In (LPop t c v) l) ->
  forall k q q' s' l, exec upd k q = Some (q', s', l) -> forall t c v, ~ In (LPop t c v) l.
Proof.
  intros Hu. induction k as [s|t0 v0 k IH|c0 k IH|s k IH]; intros q q' s' l H; simpl in H.
  - injection H as <- <- <-. intros t c v [].
  - destruct (AddTimed t0 v0 q) as [c1 q1] eqn:Hq.
    destruct (exec upd (k c1) q1) as [[[q2 s2] l2]|] eqn:He; [|simpl in H; discriminate]; simpl in H.
    injection H as <- <- <-. intros t c v [Hx|Hx]; [discriminate|exact (IH c1 _ _ _ _ He t c v Hx)].
  - destruct (exec upd k (Remove c0 q)) as [[[q2 s2] l2]|] eqn:He; [|simpl in H; discriminate]; simpl in H.
    injection H as <- <- <-. intros t c v [Hx|Hx]; [discriminate|exact (IH _ _ _ _ He t c v Hx)].
  - destruct (upd q s) as [[[q1 s1] l1]|] eqn:Hq; [|simpl in H; discriminate]; simpl in H.
    destruct (exec upd (k s1) q1) as [[[q2 s2] l2]|] eqn:He; [|simpl in H; discriminate]; simpl in H.
    injection H as <- <- <-. intros t c v Hx. apply in_app_iff in Hx as [Hx|Hx].
    + exact (Hu _ _ _ _ _ Hq t c v Hx).
    + exact (IH s1 _ _ _ _ He t c v Hx).
Qed.

(** After the code of a resume, deadline-0 waits of the ordered part are
    still among those there before, or gone. *)
Lemma exec_zero_below (upd : TimeQueue W -> St -> option (TimeQueue W * St * list (Log W))) (B : nat) :
  (forall q s q' s' l, upd q s = Some (q', s', l) ->
     Replay q (flat l) q' /\ setups_ok (flat l) /\ CheckUpdate q' = false) ->
  forall k q q' s' l, exec upd k q = Some (q', s', l) ->
  QInv q -> (0 <= tq_now q)%Z -> zero_below B q -> zero_below B q'.
Proof.
  intros Hu. induction k as [s|t v k IH|c k IH|s k IH]; intros q q' s' l H Hi Hn Hz; simpl in H.
  - injection H as <- <- <-. exact Hz.
  - assert (Hi1 : QInv (AddTimed t v q).2)
      by (apply (Replay_QInv q _ [LAdd t (AddTimed t v q).1 v]); [repeat constructor|exact Hi]).
    assert (Hn1 : (0 <= tq_now (AddTimed t v q).2)%Z)
      by (destruct (AddTimed_snd t v q) as [[_ ->]|[_ ->]]; exact Hn).
    assert (Hz1 : zero_below B (AddTimed t v q).2).
    { intros c v' Hx. destruct (AddTimed_snd t v q) as [[_ Ha]|[Ht Ha]]; rewrite Ha in Hx; simpl in Hx.
      - exact (Hz c v' Hx).
      - apply insert_timed_in in Hx as [Heq|Hx]; [injection Heq as E _ _; congruence|exact (Hz c v' Hx)]. }
    destruct (AddTimed t v q) as [c q1] eqn:Hq. simpl in Hi1, Hn1, Hz1.
    destruct (exec upd (k c) q1) as [[[q2 s2] l2]|] eqn:He; [|simpl in H; discriminate]; simpl in H.
    injection H as <- <- <-. exact (IH c _ _ _ _ He Hi1 Hn1 Hz1).
  - assert (Hi1 : QInv (Remove c q))
      by (apply (Replay_QInv q _ [LRem c]); [repeat constructor|exact Hi]).
    assert (Hz1 : zero_below B (Remove c q)).
    { intros c' v' Hx. unfold Remove in Hx. simpl in Hx. apply List.filter_In in Hx as [Hx _]. exact (Hz c' v' Hx). }
    destruct (exec upd k (Remove c q)) as [[[q2 s2] l2]|] eqn:He; [|simpl in H; discriminate]; simpl in H.
    injection H as <- <- <-. exact (IH _ _ _ _ He Hi1 Hn Hz1).
  - destruct (upd q s) as [[[q1 s1] l1]|] eqn:Hq; [|simpl in H; discriminate]; simpl in H.
    destruct (exec upd (k s1) q1) as [[[q2 s2] l2]|] eqn:He; [|simpl in H; discriminate]; simpl in H.
    injection H as <- <- <-. destruct (Hu _ _ _ _ _ Hq) as (H1 & H2 & H3).
    pose proof (Replay_QInv _ _ _ H1 Hi) as Hi1.
    pose proof (Replay_now _ _ _ H1 H2 Hn) as Hn1.
    apply (IH s1 _ _ _ _ He Hi1 Hn1).
    intros c v Hx. exfalso. destruct Hi1 as (Hs1 & _).
    rewrite (zero_due _ c v Hs1 Hn1 Hx) in H3. discriminate.
Qed.

Lemma drain_Replay (fuel : nat) :
  forall q s q' s' l, drain clock resume fuel q s = Some (q', s', l) ->
  Replay q (flat l) q' /\ setups_ok (flat l) /\ CheckUpdate q' = false.
Proof.
  induction fuel as [|n IH]; intros q s q' s' l H; simpl in H; [discriminate|].
  destruct (CheckUpdate q) eqn:Hc.
  - destruct (Pop q) as [[[[t c] v] q1]|] eqn:Hp; [|simpl in H; discriminate]; simpl in H.
    match type of H with
    | context [exec ?u (resume s (t, c, v)) q1] =>
        destruct (exec u (resume s (t, c, v)) q1) as [[[q2 s2] l1]|] eqn:He; [|simpl in H; discriminate]; simpl in H;
        assert (Hu : forall q s q' s' l, u q s = Some (q', s', l) -> Replay q (flat l) q' /\ setups_ok (flat l))
    end.
    { intros q0 s0 q0' s0' l0 H0.
      destruct (drain clock resume n (SetupUpdate (clock s0) q0) s0) as [[[qa sa] la]|] eqn:Hd;
        [|simpl in H0; discriminate]; simpl in H0.
      injection H0 as <- <- <-. destruct (IH _ _ _ _ _ Hd) as (H1 & H2 & _).
      rewrite flat_update, app_nil_r. split; [constructor; exact H1|].
      intros now [Hx|Hx]; [injection Hx as <-; apply clock_nonneg|exact (H2 now Hx)]. }
    destruct (exec_Replay _ Hu _ _ _ _ _ He) as [H1 H2].
    destruct (drain clock resume n q2 s2) as [[[q3 s3] l2]|] eqn:Hd; [|simpl in H; discriminate]; simpl in H.
    injection H as <- <- <-. destruct (IH _ _ _ _ _ Hd) as (H3 & H4 & H5).
    simpl. rewrite flat_app.
    split; [|split; [|exact H5]].
    + econstructor; [exact Hp|]. apply Replay_app. exists q2. auto.
    + intros now [Hx|Hx]; [discriminate|]. apply in_app_iff in Hx as [Hx|Hx]; auto.
  - injection H as <- <- <-. split; [constructor|]. split; [intros ? []|exact Hc].
Qed.

(** The pops of the loop itself: a deadline-0 wait it pops was, with its
    iterator, in the ordered part (below [B]) when the loop began. *)
Lemma drain_top (fuel : nat) (B : nat) :
  forall q s q' s' l, drain clock resume fuel q s = Some (q', s', l) ->
  QInv q -> (0 <= tq_now q)%Z -> zero_below B q ->
  forall t c v, In (LPop t c v) l -> t = 0%Z -> c < B.
Proof.
  induction fuel as [|n IH]; intros q s q' s' l H Hi Hn Hz; simpl in H; [discriminate|].
  destruct (CheckUpdate q) eqn:Hc.
  - destruct (Pop q) as [[[[t0 c0] v0] q1]|] eqn:Hp; [|simpl in H; discriminate]; simpl in H.
    match type of H with
    | context [exec ?u (resume s (t0, c0, v0)) q1] =>
        destruct (exec u (resume s (t0, c0, v0)) q1) as [[[q2 s2] l1]|] eqn:He; [|simpl in H; discriminate]; simpl in H;
        assert (Hu : forall q s q' s' l, u q s = Some (q', s', l) ->
                  Replay q (flat l) q' /\ setups_ok (flat l) /\ CheckUpdate q' = false);
        [|assert (Hu' : forall q s q' s' l, u q s = Some (q', s', l) -> forall t c v, ~ In (LPop t c v) l)]
    end.
    { intros q0 s0 q0' s0' l0 H0.
      destruct (drain clock resume n (SetupUpdate (clock s0) q0) s0) as [[[qa sa] la]|] eqn:Hd;
        [|simpl in H0; discriminate]; simpl in H0.
      injection H0 as <- <- <-. destruct (drain_Replay _ _ _ _ _ _ Hd) as (H1 & H2 & H3).
      rewrite flat_update, app_nil_r. split; [constructor; exact H1|split; [|exact H3]].
      intros now [Hx|Hx]; [injection Hx as <-; apply clock_nonneg|exact (H2 now Hx)]. }
    { intros q0 s0 q0' s0' l0 H0.
      destruct (drain clock resume n (SetupUpdate (clock s0) q0) s0) as [[[qa sa] la]|] eqn:Hd;
        [|simpl in H0; discriminate]; simpl in H0.
      injection H0 as <- <- <-. intros t c v [Hx|[]]. discriminate. }
    destruct (drain clock resume n q2 s2) as [[[q3 s3] l2]|] eqn:Hd; [|simpl in H; discriminate]; simpl in H.
    injection H as <- <- <-.
    destruct (Pop_timed _ _ _ Hp) as (Heq & Hn1 & Hnow1 & Hs1).
    assert (Hi1 : QInv q1)
      by (apply (Replay_QInv q _ [LPop t0 c0 v0]); [econstructor; [exact Hp|constructor]|exact Hi]).
    assert (Hz1 : zero_below B q1) by (intros c v Hx; apply (Hz c v); rewrite Heq; right; exact Hx).
    pose proof (fun q s q' s' l Hx => conj (proj1 (Hu q s q' s' l Hx)) (proj1 (proj2 (Hu q s q' s' l Hx))))
      as Hu2.
    destruct (exec_Replay _ Hu2 _ _ _ _ _ He) as [H1 H2].
    pose proof (exec_zero_below _ B Hu _ _ _ _ _ He Hi1 ltac:(rewrite Hnow1; exact Hn) Hz1) as Hz2.
    pose proof (Replay_QInv _ _ _ H1 Hi1) as Hi2.
    pose proof (Replay_now _ _ _ H1 H2 ltac:(rewrite Hnow1; exact Hn)) as Hn2.
    intros t c v Hx Ht. destruct Hx as [Hx|Hx].
    + injection Hx as E1 E2 E3; subst. apply (Hz c v). rewrite Heq. left. reflexivity.
    + apply in_app_iff in Hx as [Hx|Hx].
      * exfalso. exact (exec_no_pop _ Hu' _ _ _ _ _ He t c v Hx).
      * exact (IH _ _ _ _ _ Hd Hi2 Hn2 Hz2 t c v Hx Ht).
  - injection H as <- <- <-. intros t c v [].
Qed.

Lemma Update_Replay (fuel : nat) (q q' : TimeQueue W) (s s' : St) (l : list (Log W)) :
  Update clock resume fuel q s = Some (q', s', l) ->
  Replay (SetupUpdate (clock s) q) (flat l) q' /\ setups_ok (flat l) /\ CheckUpdate q' = false.
Proof. exact (drain_Replay fuel _ _ _ _ _). Qed.

Lemma SetupUpdate_QInv (now : Z) (q : TimeQueue W) : QInv q -> QInv (SetupUpdate now q).
Proof. intros Hi. apply (Replay_QInv q _ [LUpdate now []]); [repeat constructor|exact Hi]. Qed.

Lemma Update_QInv (fuel : nat) (q q' : TimeQueue W) (s s' : St) (l : list (Log W)) :
  QInv q -> Update clock resume fuel q s = Some (q', s', l) -> QInv q'.
Proof.
  intros Hi H. destruct (Update_Replay _ _ _ _ _ _ H) as (Hr & _).
  exact (Replay_QInv _ _ _ Hr (SetupUpdate_QInv _ _ Hi)).
Qed.

(** A wait of deadline 0 added during an [Update] is not popped by the
    loop of that [Update]. *)
Lemma Update_no_same_pass (fuel : nat) (q q' : TimeQueue W) (s s' : St) (l : list (Log W))
    (c : nat) (v : W) (t : Z) (v' : W) :
  QInv q -> Update clock resume fuel q s = Some (q', s', l) ->
  In (LAdd 0%Z c v) (flat l) -> ~ In (LPop t c v') l.
Proof.
  intros Hi H Ha Hp.
  pose proof (SetupUpdate_QInv (clock s) q Hi) as Hi0.
  destruct (Update_Replay _ _ _ _ _ _ H) as (Hr & _ & _).
  assert (Hz0 : zero_below (tq_seq q) (SetupUpdate (clock s) q)).
  { intros c0 v0 Hx. destruct Hi0 as (_ & Ht & _). exact (Ht _ Hx). }
  pose proof (drain_top fuel (tq_seq q) _ _ _ _ _ H Hi0 (clock_nonneg s) Hz0 t c v') as Htop.
  pose proof (Replay_add_ge _ _ _ Hr _ _ _ Ha) as Hge. simpl in Hge.
  apply in_split in Hp as (la & lb & ->).
  rewrite flat_app in Hr, Ha.
  change (flat (LPop t c v' :: lb)) with (LPop t c v' :: flat lb) in Hr, Ha.
  apply in_app_iff in Ha as [Ha|[Ha|Ha]].
  - pose proof (Replay_pop_zero _ _ _ _ _ _ _ _ Hr Hi0 Ha) as Ht0.
    assert (Hlt : c < tq_seq q)
      by (apply Htop; [apply in_or_app; right; left; reflexivity|exact Ht0]).
    lia.
  - discriminate.
  - exact (Replay_add_after_pop _ _ _ _ _ _ _ _ _ Hr Hi0 Ha).
Qed.

(** Between the add of a deadline-0 wait and any pop of it, a nested
    [Update] starts. *)
Lemma Update_between (fuel : nat) (q q' : TimeQueue W) (s s' : St) (l : list (Log W))
    (l1 l2 l3 : list (Log W)) (c : nat) (v : W) (t : Z) (v' : W) :
  QInv q -> Update clock resume fuel q s = Some (q', s', l) ->
  flat l = l1 ++ LAdd 0%Z c v :: l2 ++ LPop t c v' :: l3 ->
  exists now, In (LUpdate now []) l2.
Proof.
  intros Hi H HL.
  pose proof (SetupUpdate_QInv (clock s) q Hi) as Hi0.
  destruct (Update_Replay _ _ _ _ _ _ H) as (Hr & _ & _). rewrite HL in Hr.
  apply Replay_app in Hr as (qa & H1 & H2).
  pose proof (Replay_QInv _ _ _ H1 Hi0) as (_ & Hta & _).
  apply Replay_cons_add in H2 as (Hc & H2).
  refine (Replay_fresh _ _ _ c H2 _ _ l2 l3 t v' eq_refl).
  - destruct (AddTimed_snd 0%Z v qa) as [[_ ->]|[Hne _]]; [simpl; lia|lia].
  - destruct (AddTimed_snd 0%Z v qa) as [[_ ->]|[Hne _]]; [simpl|lia].
    intros Hx. apply in_map_iff in Hx as (e & He & Hx). specialize (Hta e Hx). lia.
Qed.

(** A deadline-0 wait added during an [Update] is popped or removed later
    in it, or is left for the next [SetupUpdate]. *)
Lemma Update_added (fuel : nat) (q q' : TimeQueue W) (s s' : St) (l : list (Log W))
    (c : nat) (v : W) :
  QInv q -> Update clock resume fuel q s = Some (q', s', l) ->
  In (LAdd 0%Z c v) (flat l) ->
  In (LPop 0%Z c v) (flat l) \/ In (LRem c) (flat l) \/ In (c, v) (tq_next q').
Proof.
  intros Hi H Ha.
  pose proof (SetupUpdate_QInv (clock s) q Hi) as Hi0.
  destruct (Update_Replay _ _ _ _ _ _ H) as (Hr & Hok & Hc).
  pose proof (Replay_QInv _ _ _ Hr Hi0) as (Hs' & _).
  pose proof (Replay_now _ _ _ Hr Hok (clock_nonneg s)) as Hn'.
  apply in_split in Ha as (L1 & L2 & HL). rewrite HL in Hr |- *.
  apply Replay_app in Hr as (qa & _ & H2).
  apply Replay_cons_add in H2 as (-> & H2).
  assert (Hin : In (tq_seq qa, v) (tq_next (AddTimed 0%Z v qa).2) \/
                In (0%Z, tq_seq qa, v) (tq_timed (AddTimed 0%Z v qa).2))
    by (left; unfold AddTimed; simpl; apply in_app_iff; right; left; reflexivity).
  destruct (Replay_track _ _ _ _ _ H2 Hin) as [[Hn|Ht]|[Hp|Hm]].
  - right; right; exact Hn.
  - rewrite (zero_due _ _ _ Hs' Hn' Ht) in Hc. discriminate.
  - left. apply in_or_app. right. right. exact Hp.
  - right; left. apply in_or_app. right. right. exact Hm.
Qed.

(** A wait held for the next drain when [Update] starts is popped or
    removed during it. *)
Lemma Update_pending (fuel : nat) (q q' : TimeQueue W) (s s' : St) (l : list (Log W))
    (c : nat) (v : W) :
  QInv q -> Update clock resume fuel q s = Some (q', s', l) ->
  In (c, v) (tq_next q) -> In (LPop 0%Z c v) (flat l) \/ In (LRem c) (flat l).
Proof.
  intros Hi H Hx.
  pose proof (SetupUpdate_QInv (clock s) q Hi) as Hi0.
  destruct (Update_Replay _ _ _ _ _ _ H) as (Hr & Hok & Hc).
  pose proof (Replay_QInv _ _ _ Hr Hi0) as (Hs' & _).
  pose proof (Replay_now _ _ _ Hr Hok (clock_nonneg s)) as Hn'.
  assert (Hin : In (0%Z, c, v) (tq_timed (SetupUpdate (clock s) q)))
    by (unfold SetupUpdate; simpl; apply merge_next_in; right; exists c, v; auto).
  destruct (Replay_track_timed _ _ _ _ _ Hr Hin) as [Ht|[Hp|Hm]].
  - rewrite (zero_due _ _ _ Hs' Hn' Ht) in Hc. discriminate.
  - left; exact Hp.
  - right; exact Hm.
Qed.

End Run.
End UpdFacts.

Module Claims.
Import TQ TQFacts MgrFacts QueueFacts AllFacts AnyFacts DrainFacts.

(** C1 (spec-modelled queue), as corrected: a coroutine that suspends on
    [Wait(0)] for the queue being drained is not resumed by the loop of
    that [Update]; its wait is popped only after a later [SetupUpdate],
    i.e. by a later [Update] of the queue (possibly one nested in the
    drain); until then it stays pending, so the next [Update] resumes it
    unless it is removed first.  For any code run by the resumes
    ([QueueUpdate]), a non-negative clock, and an ordered queue whose
    iterators are below its counter ([UpdFacts.QInv]), a successful
    [Update] with log [l]:
    - pops with its own loop no wait of deadline 0 added during it;
    - between the add of such a wait and any pop of it, starts a nested
      [Update];
    - pops or removes each such wait later in a nested [Update], or leaves
      it in [tq_next] for the next drain;
    - pops or removes every wait held in [tq_next] when it starts;
    - leaves a queue meeting the same invariant.
    And the body [{ co_await Wait(); count += 1; co_await Wait(); count += 2; }]
    leaves [count] at 0 after [Start], 1 after one [Update], 3 after two. *)
Theorem wait_zero_resumes_next_update :
  (forall (W St : Type) (clock : St -> Z) (resume : St -> Z * nat * W -> QueueUpdate.Code W St)
          (fuel : nat) (q q' : TimeQueue W) (s s' : St) (l : list (QueueUpdate.Log W)),
     (forall s0, (0 <= clock s0)%Z) -> UpdFacts.QInv q ->
     QueueUpdate.Update clock resume fuel q s = Some (q', s', l) ->
     (forall c v t v', In (QueueUpdate.LAdd 0%Z c v) (QueueUpdate.flat l) ->
        ~ In (QueueUpdate.LPop t c v') l) /\
     (forall l1 l2 l3 c v t v',
        QueueUpdate.flat l = l1 ++ QueueUpdate.LAdd 0%Z c v :: l2 ++ QueueUpdate.LPop t c v' :: l3 ->
        exists now, In (QueueUpdate.LUpdate now []) l2) /\
     (forall c v, In (QueueUpdate.LAdd 0%Z c v) (QueueUpdate.flat l) ->
        In (QueueUpdate.LPop 0%Z c v) (QueueUpdate.flat l) \/
        In (QueueUpdate.LRem c) (QueueUpdate.flat l) \/ In (c, v) (tq_next q')) /\
     (forall c v, In (c, v) (tq_next q) ->
        In (QueueUpdate.LPop 0%Z c v) (QueueUpdate.flat l) \/ In (QueueUpdate.LRem c) (QueueUpdate.flat l)) /\
     UpdFacts.QInv q') /\
  (exists w1 w2 w3,
     Start 1 next_frame_body sched0 = Ok (1%N, w1) /\ user w1 = 0%Z /\
     Update 1 10 0 0 w1 = Ok w2 /\ user w2 = 1%Z /\
     Update 1 10 0 0 w2 = Ok w3 /\ user w3 = 3%Z).
Proof.
  split.
  - intros W St clock resume fuel q q' s s' l Hclock Hi H.
    split; [|split; [|split; [|split]]].
    + intros c v t v'. exact (UpdFacts.Update_no_same_pass clock resume Hclock fuel q q' s s' l c v t v' Hi H).
    + intros l1 l2 l3 c v t v'.
      exact (UpdFacts.Update_between clock resume Hclock fuel q q' s s' l l1 l2 l3 c v t v' Hi H).
    + intros c v. exact (UpdFacts.Update_added clock resume Hclock fuel q q' s s' l c v Hi H).
    + intros c v. exact (UpdFacts.Update_pending clock resume Hclock fuel q q' s s' l c v Hi H).
    + exact (UpdFacts.Update_QInv clock resume Hclock fuel q q' s s' l Hi H).
  - exists (started next_frame_body sched0),
           (updated (started next_frame_body sched0)),
           (updated (updated (started next_frame_body sched0))).
    split; [vm_compute; reflexivity|]. split; [vm_compute; reflexivity|].
    split; [vm_compute; reflexivity|]. split; [vm_compute; reflexivity|].
    split; [vm_compute; reflexivity|]. vm_compute; reflexivity.
Qed.

(** A coroutine that, resumed, waits on [Wait()] again: the [Update] pops
    the pending wait and leaves the new one for the next drain. *)
Lemma wait_zero_resumes_next_update_witness :
  ~ In (QueueUpdate.LPop 0%Z 1 7) [QueueUpdate.LPop 0%Z 0 7; QueueUpdate.LAdd 0%Z 1 7] /\
  In (1, 7) (tq_next (mkTimeQueue [] [(1, 7)] 5%Z 2)).
Proof.
  destruct (proj1 wait_zero_resumes_next_update nat unit (fun _ => 5%Z) rewait_resume 10
              (mkTimeQueue [] [(0, 7)] 0%Z 1) (mkTimeQueue [] [(1, 7)] 5%Z 2) tt tt
              [QueueUpdate.LPop 0%Z 0 7; QueueUpdate.LAdd 0%Z 1 7]
              ltac:(intros; lia)
              ltac:(split; [constructor|split; [intros e []|intros x [<-|[]]; simpl; lia]])
              ltac:(vm_compute; reflexivity))
    as (H1 & _ & H3 & _).
  split.
  - apply (H1 1 7 0%Z 7). simpl. right. left. reflexivity.
  - destruct (H3 1 7 ltac:(simpl; right; left; reflexivity)) as [Hx|[Hx|Hx]];
      [simpl in Hx; intuition discriminate|simpl in Hx; intuition discriminate|exact Hx].
Defined.

(** C1, counterexample: a coroutine suspended on [Wait(0)] is not
    resumed by the next [Update] when its wait is removed before.  Two
    children of an [Any] wait on [Wait()]: the next [Update] resumes the
    first, which completes the [Any]; its [await_resume] destroys the
    second child and removes its wait, which is never resumed (in the
    queue model, and step by step in the model of [Any]).  And a root
    suspended on [Wait()] and then stopped is not resumed by the next
    [Update]: [count] stays 0 and the trace holds only the add. *)
Lemma wait_zero_removed_not_resumed :
  QueueUpdate.Update (fun _ : unit => 5%Z) any_pair_resume 10
    (mkTimeQueue [] [(0, 10); (1, 11)] 0%Z 2) tt =
    Some (mkTimeQueue [] [] 5%Z 2, tt, [QueueUpdate.LPop 0%Z 0 10; QueueUpdate.LRem 1]) /\
  (exists a a' w2,
     Pop (SetupUpdate 5%Z (mkTimeQueue [] [(0, 1%N); (1, 1%N)] 0%Z 2)) =
       Some ((0%Z, 0, 1%N), mkTimeQueue [(0%Z, 1, 1%N)] [] 5%Z 2) /\
     Any_child_done 0 (promise_of (RVal 7)) (Any_make any_pair) = (ResumeParent, a) /\
     Any_await_resume a (set_queue 0 (mkTimeQueue [(0%Z, 1, 1%N)] [] 5%Z 2) any_pair_world) =
       Ok (Returned [Some (RVal 7); None], a', w2) /\
     mExecuteQueues w2 = [mkTimeQueue [] [] 5%Z 2] /\
     CheckUpdate (mkTimeQueue (W := N) [] [] 5%Z 2) = false) /\
  user (updated (stopped (started one_wait_body sched0))) = 0%Z /\
  trace (updated (stopped (started one_wait_body sched0))) = [EvAdd 0 0 0 1%N].
Proof.
  split; [vm_compute; reflexivity|].
  split; [|split; vm_compute; reflexivity].
  destruct (Any_child_done 0 (promise_of (RVal 7)) (Any_make any_pair)) as [k a] eqn:Hd.
  vm_compute in Hd. injection Hd as <- <-.
  eexists _, _, _. split; [vm_compute; reflexivity|]. split; [reflexivity|].
  split; [vm_compute; reflexivity|]. split; vm_compute; reflexivity.
Qed.

(** C2 (spec-modelled queue): N waiters inserted into one queue in any
    order; one drain whose snapshot [now] is at least every deadline pops
    all of them in ascending order of deadline, and waiters with equal
    deadlines in their insertion order. *)
Theorem drain_ascending_deadline_fifo {W : Type} (l : list (Z * W))
    (q : TimeQueue W) (now : Z) :
  tq_timed q = [] -> tq_next q = [] ->
  Forall (fun x : Z * W => (x.1 <= now)%Z) l ->
  let out := map dv (drain_pops (length l) (SetupUpdate now (add_all l q))) in
  Permutation out l /\ Sorted (fun a b : Z * W => (a.1 <= b.1)%Z) out /\
  forall d, fd d out = fd d l.
Proof.
  intros Ht Hn Hle out.
  destruct (add_all_props l q [] [] ltac:(rewrite Ht; split; [done|split; constructor])
              ltac:(by rewrite Hn)) as [HP HZ].
  pose proof (merge_next_props (tq_next (add_all l q)) _ _ HP) as HM.
  rewrite HZ in HM. simpl in HM.
  destruct HM as (Hp & Hs & Hf).
  assert (Hp' : Permutation (map dv (merge_next (tq_next (add_all l q))
                                         (tq_timed (add_all l q)))) l)
    by (rewrite Hp; apply filter_split_perm).
  unfold out, SetupUpdate. rewrite drain_pops_all; simpl.
  - split; [exact Hp'|split].
    + by apply StronglySorted_map_dv.
    + intros d. rewrite Hf. apply filter_split_fd.
  - apply Permutation_length in Hp'. rewrite length_map in Hp'. lia.
  - apply Forall_map_inv_dv. eapply Permutation_Forall; [symmetry; exact Hp'|exact Hle].
Qed.

Lemma drain_ascending_deadline_fifo_witness :
  (let l := [(3, 10); (1, 11); (3, 12); (2, 13)]%Z in
   let out := map dv (drain_pops (length l) (SetupUpdate 5 (add_all l TQ.empty))) in
   Permutation out l /\ Sorted (fun a b : Z * Z => (a.1 <= b.1)%Z) out /\
   forall d, fd d out = fd d l) /\
  map dv (drain_pops 4 (SetupUpdate 5 (add_all [(3, 10); (1, 11); (3, 12); (2, 13)]%Z TQ.empty)))
    = [(1, 11); (2, 13); (3, 10); (3, 12)]%Z.
Proof.
  split.
  - apply (drain_ascending_deadline_fifo [(3, 10); (1, 11); (3, 12); (2, 13)]%Z TQ.empty 5);
      [reflexivity|reflexivity|repeat constructor; simpl; lia].
  - vm_compute. reflexivity.
Defined.

(** C10: a moved-from handle has id 0 and an empty liveness witness;
    [IsDown] is true, [Stop] does nothing, [TakeResult] is empty and its
    destructor calls no [Release]. *)
Theorem moved_from_handle_inert (h : Handle) (w : World) :
  let '(h1, h0) := Handle_move h in
  h1 = h /\ hId h0 = 0%N /\ hLive h0 = false /\ expired h0 w = true /\
  Handle_IsDown h0 w = Ok true /\ Handle_Stop h0 w = Ok w /\
  Handle_TakeResult h0 w = Ok (TEmpty, w) /\ Handle_Drop h0 w = Ok w.
Proof. destruct h; simpl. repeat split. Qed.

(** C3, counterexample: a root suspended on [Wait()]; dropping its
    handle keeps its wait queued and the coroutine running (the next
    [Update] runs [count += 1]), while [Stop] followed by dropping a
    forgotten handle removes the wait and stops it. *)
Lemma drop_differs_from_stop_then_forget :
  exists w1 wa wb,
    Start 1 one_wait_body sched0 = Ok (1%N, w1) /\
    Handle_Drop (mkHandle 1 true true) w1 = Ok wa /\
    (w2 ← Handle_Stop (mkHandle 1 true true) w1;
     Handle_Drop (forgotten (mkHandle 1 true true)) w2) = Ok wb /\
    total_size wa = 1 /\ total_size wb = 0 /\
    Handle_Drop (mkHandle 1 true true) w1 <>
      (w2 ← Handle_Stop (mkHandle 1 true true) w1;
       Handle_Drop (forgotten (mkHandle 1 true true)) w2) /\
    (match Update 1 10 0 0 wa with Ok w => Some (user w) | Err _ => None end) = Some 1%Z /\
    (match Update 1 10 0 0 wb with Ok w => Some (user w) | Err _ => None end) = Some 0%Z.
Proof.
  eexists _, _, _. split; [reflexivity|]. split; [reflexivity|].
  split; [reflexivity|]. split; [reflexivity|]. split; [reflexivity|].
  split; [|split; vm_compute; reflexivity].
  intros H.
  apply (f_equal (fun r => match r with Ok w => total_size w | Err _ => 0 end)) in H.
  vm_compute in H. discriminate H.
Qed.


(** C3, amended: dropping the handle of a root that is still running only
    marks its entry released ([CoroManager::Release]); the frame, the
    closure, the running flag and the time queues are unchanged, so the
    coroutine keeps being resumed until it ends. *)
Theorem drop_running_handle_releases_only (h : Handle) (w : World) (e : Entry) :
  hId h <> 0%N -> expired h w = false -> hMgr h = true ->
  mCoroutines w !! hId h = Some e -> running e = true -> released e = false ->
  Handle_Drop h w =
    Ok (set_entries (<[hId h := mkEntry (coro e) (lambda e) true true]> (mCoroutines w)) w).
Proof.
  intros Hid Hx Hm He Hr Hrel. unfold Handle_Drop.
  apply N.eqb_neq in Hid. rewrite Hid, Hx, Hm. simpl.
  unfold Release. rewrite He, Hrel. bind_simpl. rewrite Hr. reflexivity.
Qed.

Lemma drop_running_handle_releases_only_witness :
  exists w', Handle_Drop (mkHandle 1 true true) (started one_wait_body sched0) = Ok w'.
Proof.
  eexists.
  apply (drop_running_handle_releases_only (mkHandle 1 true true)
           (started one_wait_body sched0) (entry_of 1 (started one_wait_body sched0)));
    try (vm_compute; reflexivity).
  discriminate.
Defined.

(** C4 (spec-modelled promise): the result of a root is taken once: a
    value [v] is returned by the first [TakeResult()] and every later call
    returns empty; a captured exception is re-thrown by the first call
    and every later call returns empty. *)
Theorem take_result_one_shot (h : Handle) (w : World) (e : Entry) (fr : Frame) (n : nat) :
  expired h w = false -> hMgr h = true ->
  mCoroutines w !! hId h = Some e -> coro e = Some fr ->
  (forall v, fr_promise fr = mkPromise (Some v) None ->
             takes (S n) h w = Ok (TValue v :: repeat TEmpty n)) /\
  (forall ex, fr_promise fr = mkPromise None (Some ex) ->
              takes (S n) h w = Ok (TThrow ex :: repeat TEmpty n)).
Proof.
  intros Hx Hm He Hc. split.
  - intros v Hp. rewrite (takes_after_take n h w e fr Hx Hm He Hc); rewrite Hp; reflexivity.
  - intros ex Hp. rewrite (takes_after_take n h w e fr Hx Hm He Hc); rewrite Hp; reflexivity.
Qed.

Lemma take_result_one_shot_witness :
  takes 3 (mkHandle 1 true true) (updated (started ret_body sched0))
    = Ok [TValue 7; TEmpty; TEmpty] /\
  takes 3 (mkHandle 1 true true) (updated (started throw_body sched0))
    = Ok [TThrow 3; TEmpty; TEmpty].
Proof.
  split.
  - apply (proj1 (take_result_one_shot (mkHandle 1 true true) (updated (started ret_body sched0))
                    (entry_of 1 (updated (started ret_body sched0)))
                    (frame_of 1 (updated (started ret_body sched0))) 2
                    ltac:(vm_compute; reflexivity) ltac:(vm_compute; reflexivity)
                    ltac:(vm_compute; reflexivity) ltac:(vm_compute; reflexivity))).
    vm_compute. reflexivity.
  - apply (proj2 (take_result_one_shot (mkHandle 1 true true) (updated (started throw_body sched0))
                    (entry_of 1 (updated (started throw_body sched0)))
                    (frame_of 1 (updated (started throw_body sched0))) 2
                    ltac:(vm_compute; reflexivity) ltac:(vm_compute; reflexivity)
                    ltac:(vm_compute; reflexivity) ltac:(vm_compute; reflexivity))).
    vm_compute. reflexivity.
Defined.

(** C5, the stopped case: after [Stop()] on a running root the entry holds
    no frame ([coro.Reset()]), and [TakeResult()] reads
    [mCoroutines[id].coro] without a check: undefined behaviour, not an
    empty result. *)
Theorem take_result_after_stop_undefined (h : Handle) (w w' : World) (e : Entry) :
  expired h w = false -> hMgr h = true ->
  mCoroutines w !! hId h = Some e -> running e = true -> released e = false ->
  Handle_Stop h w = Ok w' ->
  Handle_IsDown h w' = Ok true /\ Handle_TakeResult h w' = Err Undefined.
Proof.
  intros Hx Hm He Hr Hrel. unfold Handle_Stop. rewrite Hx, Hm.
  unfold Stop. rewrite He, Hrel. bind_simpl. rewrite Hr.
  match goal with |- context [DestroyCoro ?c ?w0] => destruct (DestroyCoro c w0) as [w1|] eqn:Hd end;
    bind_simpl; [|discriminate].
  intros H; inversion H; subst w'; clear H.
  apply DestroyCoro_queues in Hd.
  assert (mAlive w1 = mAlive w) as Ha by (rewrite Hd; reflexivity).
  unfold Handle_IsDown, Handle_TakeResult, IsDown, GetReturn, expired in *. simpl.
  rewrite Ha, Hx, Hm. rewrite lookup_insert_eq. split; reflexivity.
Qed.


Lemma take_result_after_stop_undefined_witness :
  Handle_TakeResult (mkHandle 1 true true) (stopped (started one_wait_body sched0))
    = Err Undefined.
Proof.
  apply (proj2 (take_result_after_stop_undefined (mkHandle 1 true true)
                  (started one_wait_body sched0) (stopped (started one_wait_body sched0))
                  (entry_of 1 (started one_wait_body sched0))
                  ltac:(vm_compute; reflexivity) ltac:(vm_compute; reflexivity)
                  ltac:(vm_compute; reflexivity) ltac:(vm_compute; reflexivity)
                  ltac:(vm_compute; reflexivity) ltac:(vm_compute; reflexivity))).
Defined.

(** C8: while a root occupies the newly-finished slot, a second finisher
    fails the assert of [OnCoroutineFinished]; [StopNewFinishedCoro]
    empties the slot, clears [running] and the closure, erases the entry
    if it is released and otherwise keeps it with its frame (so that the
    handle can still query it and take the result); and every successful
    [StopNewFinishedCoro] leaves the slot empty. *)
Theorem stop_new_finished_slot (w : World) (e : Entry) :
  mNewFinishedCoro w <> 0%N ->
  mCoroutines w !! mNewFinishedCoro w = Some e -> running e = true ->
  (forall fr, coro e = Some fr -> fr_susp fr = SNone) ->
  (forall id, OnCoroutineFinished id w = Err AssertFail) /\
  StopNewFinishedCoro w =
    Ok (if released e
        then set_entries (delete (mNewFinishedCoro w) (mCoroutines w)) (set_slot 0 w)
        else set_entries (<[mNewFinishedCoro w := mkEntry (coro e) false false false]>
                            (mCoroutines w)) (set_slot 0 w)) /\
  (forall w1 w2, StopNewFinishedCoro w1 = Ok w2 -> mNewFinishedCoro w2 = 0%N).
Proof.
  intros Hs He Hr Hd. split; [|split].
  - intros id. unfold OnCoroutineFinished, assert_.
    destruct (N.eqb id 0); bind_simpl; [reflexivity|].
    apply N.eqb_neq in Hs. rewrite Hs. reflexivity.
  - unfold StopNewFinishedCoro. apply N.eqb_neq in Hs as Hs'. rewrite Hs', He, Hr.
    bind_simpl. destruct (released e) eqn:Hrel.
    + rewrite (DestroyCoro_done (coro e) _ Hd). reflexivity.
    + reflexivity.
  - intros w1 w2. unfold StopNewFinishedCoro.
    destruct (N.eqb (mNewFinishedCoro w1) 0) eqn:Hz.
    + intros H; inversion H; subst. apply N.eqb_eq. exact Hz.
    + destruct (mCoroutines w1 !! mNewFinishedCoro w1) as [e1|]; [|discriminate].
      unfold assert_. destruct (running e1); bind_simpl; [|discriminate].
      destruct (released e1).
      * destruct (DestroyCoro (coro e1) (set_slot 0 w1)) as [w3|] eqn:Hd3;
          bind_simpl; [|discriminate].
        intros H; inversion H; subst. apply DestroyCoro_queues in Hd3.
        rewrite Hd3. reflexivity.
      * intros H; inversion H; subst. reflexivity.
Qed.

Lemma stop_new_finished_slot_witness :
  OnCoroutineFinished 2 (started (Ret 7) sched0) = Err AssertFail /\
  exists w', StopNewFinishedCoro (started (Ret 7) sched0) = Ok w' /\ mNewFinishedCoro w' = 0%N.
Proof.
  destruct (stop_new_finished_slot (started (Ret 7) sched0) (entry_of 1 (started (Ret 7) sched0))
              ltac:(vm_compute; discriminate) ltac:(vm_compute; reflexivity)
              ltac:(vm_compute; reflexivity)
              ltac:(vm_compute; intros fr H; injection H as <-; reflexivity))
    as [H1 [H2 H3]].
  split; [apply H1|]. eexists. split; [exact H2|]. exact (H3 _ _ H2).
Defined.


(** C9: stopping a running root whose suspension tree holds K pending
    waits removes exactly those K records from the time queues (the total
    size drops by K), and the handle is down right after [Stop()]. *)
Theorem stop_removes_pending_waits (h : Handle) (w : World) (e : Entry) (fr : Frame) :
  expired h w = false -> hMgr h = true ->
  mCoroutines w !! hId h = Some e -> running e = true -> released e = false ->
  coro e = Some fr -> pending (waits_of (fr_susp fr)) (mExecuteQueues w) = true ->
  exists w', Handle_Stop h w = Ok w' /\
    total_size w' + length (waits_of (fr_susp fr)) = total_size w /\
    Handle_IsDown h w' = Ok true.
Proof.
  intros Hx Hm He Hr Hrel Hc Hp.
  pose (w0 := set_entries (<[hId h := mkEntry (Some fr) (lambda e) false false]> (mCoroutines w)) w).
  destruct (destroy_waits_size (waits_of (fr_susp fr)) w0 (pending_spec _ _ Hp)) as [w1 [Hd Hs]].
  assert (Hq1 : w1 = set_queues (mExecuteQueues w1) w0) by (eapply destroy_waits_queues; exact Hd).
  exists (set_entries (<[hId h := mkEntry None false false false]> (mCoroutines w1)) w1).
  split; [|split].
  - unfold Handle_Stop. rewrite Hx, Hm. unfold Stop. rewrite He, Hrel, Hr, Hc.
    unfold assert_, mbind, Res_bind. cbv beta iota. unfold DestroyCoro.
    rewrite DestroySusp_waits. unfold w0 in Hd. rewrite Hd. reflexivity.
  - exact Hs.
  - assert (mAlive w1 = mAlive w) as Ha by (rewrite Hq1; reflexivity).
    unfold Handle_IsDown, IsDown, expired in *. simpl.
    rewrite Ha, Hx, Hm. rewrite lookup_insert_eq. reflexivity.
Qed.

Lemma stop_removes_pending_waits_witness :
  exists w', Handle_Stop (mkHandle 1 true true) (started one_wait_body sched0) = Ok w' /\
    total_size w' + 1 = total_size (started one_wait_body sched0) /\
    Handle_IsDown (mkHandle 1 true true) w' = Ok true.
Proof.
  apply (stop_removes_pending_waits (mkHandle 1 true true) (started one_wait_body sched0)
           (entry_of 1 (started one_wait_body sched0)) (frame_of 1 (started one_wait_body sched0)));
    vm_compute; reflexivity.
Defined.


(** C7: an [All] over children [c1..cN] ([N >= 1]) finishing in any order
    [ord] (a permutation of the argument indices) suspends its parent, and
    [OnWaitComplete] returns the parent handle only for the last child to
    complete (a no-op continuation for each of the others); [await_resume]
    then returns every child's result in argument order. *)
Theorem all_resumes_on_last_in_argument_order (cs : list Child) (outs : list RetVal)
    (ord : list nat) :
  1 <= length cs -> (N.of_nat (length cs) < u64_modulus)%N ->
  Forall2 (fun c o => ch_void c = is_unit o) cs outs ->
  Permutation ord (seq 0 (length cs)) ->
  All_await_ready (All_make cs) = false /\
  let '(ks, a) := All_run (map (fun i => (i, promise_of (nth i outs RUnit))) ord) (All_make cs) in
  ks = repeat NoopCoroutine (length cs - 1) ++ [ResumeParent] /\
  exists a', All_await_resume a = Ok (Returned outs, a').
Proof.
  intros Hn Hm Hv Hp.
  set (pv := fun i => promise_of (nth i outs RUnit)).
  assert (Hlo : length ord = length cs) by (rewrite (Permutation_length Hp); apply length_seq).
  assert (Hnd : List.NoDup ord)
    by (apply (Permutation_NoDup (Permutation_sym Hp)); apply seq_NoDup).
  assert (Hin : forall i, In i ord <-> i < length cs).
  { intros i. split; intros H.
    - apply (Permutation_in _ Hp), in_seq in H. lia.
    - apply (Permutation_in _ (Permutation_sym Hp)), in_seq. lia. }
  split.
  { unfold All_await_ready, All_make. simpl. apply N.eqb_neq. lia. }
  pose proof (All_run_conts pv ord (All_make cs)) as Hk.
  pose proof (All_run_waited pv ord (All_make cs) Hnd) as Hw.
  pose proof (All_run_length (map (fun i => (i, pv i)) ord) (All_make cs)) as Hl.
  unfold pv in Hk, Hw, Hl.
  destruct (All_run _ (All_make cs)) as [ks a] eqn:E. simpl in Hk, Hw, Hl.
  split.
  - rewrite Hk by (rewrite ?Nat2N.id; lia). rewrite Nat2N.id, Hlo.
    destruct (length cs) as [|m] eqn:Hc; [lia|].
    rewrite seq_S, map_app. simpl. rewrite Nat.eqb_refl. f_equal.
    replace (m - 0) with (length (seq 1 m)) by (rewrite length_seq; lia).
    rewrite <- map_const. apply map_ext_in. intros j Hj. apply in_seq in Hj.
    destruct (Nat.eqb_spec j (S m)); [lia|reflexivity].
  - unfold All_await_resume.
    destruct (all_store_ok (all_waited a) outs) as [cs' Hs].
    + rewrite Hl. apply (Forall2_length _ _ _ Hv).
    + intros i c o Hc Ho.
      assert (Hi : i < length cs) by (rewrite <- Hl; eapply lookup_lt_Some; exact Hc).
      rewrite Hw in Hc.
      assert (existsb (Nat.eqb i) ord = true) as Hx.
      { apply existsb_exists. exists i. split; [apply Hin; exact Hi|apply Nat.eqb_refl]. }
      rewrite Hx in Hc.
      destruct (lookup_lt_is_Some_2 cs i Hi) as [c0 Hc0]. rewrite Hc0 in Hc.
      simpl in Hc. injection Hc as <-.
      rewrite (nth_lookup_Some outs i RUnit o Ho).
      apply take_finished. exact (Forall2_lookup_lr _ _ _ _ _ _ Hv Hc0 Ho).
    + rewrite Hs. eexists. reflexivity.
Qed.


Lemma all_resumes_on_last_in_argument_order_witness :
  All_await_ready (All_make three_children) = false /\
  let '(ks, a) := All_run (map (fun i => (i, promise_of (nth i [RVal 1; RVal 2; RVal 3] RUnit)))
                               [2; 0; 1]) (All_make three_children) in
  ks = [NoopCoroutine; NoopCoroutine; ResumeParent] /\
  exists a', All_await_resume a = Ok (Returned [RVal 1; RVal 2; RVal 3], a').
Proof.
  apply (all_resumes_on_last_in_argument_order three_children [RVal 1; RVal 2; RVal 3] [2; 0; 1]).
  - simpl. lia.
  - vm_compute. reflexivity.
  - repeat constructor.
  - simpl. apply (Permutation_cons_append [0; 1] 2).
Defined.


(** C6: an [Any] over children with distinct frames resumes its parent
    when the first child [i] completes (with result [o]; [RUnit] for a
    [void] child); its [await_resume] returns a tuple whose only populated
    entry is [i], holding [o], after every other child has been destroyed:
    the tuple of children is reset and each of their pending wait records
    has left its queue. *)
Theorem any_resumes_on_first_with_single_result (cs : list Child) (i : nat) (c : Child)
    (o : RetVal) (w : World) :
  NoDup (ch_addr <$> cs) -> cs !! i = Some c -> ch_void c = is_unit o ->
  pending (child_waits (delete i cs)) (mExecuteQueues w) = true ->
  let '(k, a) := Any_child_done i (promise_of o) (Any_make cs) in
  k = ResumeParent /\
  exists a' w', Any_await_resume a w =
                  Ok (Returned (<[i := Some o]> (repeat None (length cs))), a', w') /\
    any_waited a' = None /\
    total_size w' + length (child_waits (delete i cs)) = total_size w /\
    (forall r cur, In r (child_waits (delete i cs)) -> wr_iter r = Some cur ->
                   absent (wr_key r) cur w').
Proof.
  intros Hnd Hc Hv Hp.
  unfold Any_child_done, Any_make, Any_OnWaitComplete. cbn [any_waited any_first any_results].
  rewrite Hc. cbn [fmap option_fmap option_map]. split; [reflexivity|].
  set (p := promise_of o). set (cs1 := alter (finish_child p) i cs).
  assert (Hc1 : cs1 !! i = Some (finish_child p c)) by (unfold cs1; rewrite list_lookup_alter_eq, Hc; reflexivity).
  destruct (take_finished c o Hv) as [c' Ht].
  assert (Hi : i < length cs) by (eapply lookup_lt_Some; exact Hc).
  pose proof (any_store_hit (Some (ch_addr c)) cs1 i (finish_child p c) c' o Hc1 eq_refl) as Hs.
  assert (Ho : forall m' c0, m' <> i -> cs1 !! m' = Some c0 -> Some (ch_addr c0) <> Some (ch_addr c)).
  { intros m' c0 Hne Hm' Heq. injection Heq as Heq. unfold cs1 in Hm'.
    rewrite list_lookup_alter_ne in Hm' by congruence.
    apply Hne. eapply (NoDup_lookup (ch_addr <$> cs)); [exact Hnd| |].
    - rewrite list_lookup_fmap, Hm'. simpl. rewrite Heq. reflexivity.
    - rewrite list_lookup_fmap, Hc. reflexivity. }
  specialize (Hs Ho Ht 0 (repeat None (length cs))).
  unfold Any_await_resume. cbn [any_waited any_first any_results].
  rewrite Hs. bind_simpl.
  rewrite DestroyChildren_waits.
  assert (Hw : child_waits (<[i:=c']> cs1) = child_waits (delete i cs)).
  { unfold cs1. apply child_waits_done; [|exact Hi].
    rewrite (take_child_susp _ _ _ Ht). reflexivity. }
  rewrite Hw.
  destruct (destroy_waits_size _ w (pending_spec _ _ Hp)) as [w' [Hd Hsz]].
  rewrite Hd. bind_simpl.
  eexists _, w'. split; [reflexivity|]. split; [reflexivity|]. split; [exact Hsz|].
  exact (destroy_waits_absent _ _ _ Hd).
Qed.


Lemma any_resumes_on_first_with_single_result_witness :
  let '(k, a) := Any_child_done 1 (promise_of (RVal 20)) (Any_make three_children) in
  k = ResumeParent /\
  exists a' w', Any_await_resume a any_world =
                  Ok (Returned (<[1 := Some (RVal 20)]> (repeat None (length three_children))), a', w') /\
    any_waited a' = None /\
    total_size w' + length (child_waits (delete 1 three_children)) = total_size any_world /\
    (forall r cur, In r (child_waits (delete 1 three_children)) -> wr_iter r = Some cur ->
                   absent (wr_key r) cur w').
Proof.
  apply (any_resumes_on_first_with_single_result three_children 1
           (mkChild 11 false (child_frame 1)) (RVal 20) any_world).
  - apply (bool_decide_unpack (NoDup (ch_addr <$> three_children))). vm_compute. reflexivity.
  - vm_compute. reflexivity.
  - reflexivity.
  - vm_compute. reflexivity.
Defined.

End Claims.

(** * Further properties of the scheduler core *)

Module Extras.
Import TQ TQFacts MgrFacts QueueFacts DrainFacts ExtraFacts.

(** X1: for in-range enum values, [TypesToIndex] is an index of
    [mExecuteQueues] (an array of [UpdateEnum::Count * TimeEnum::Count]
    queues); distinct pairs get distinct queues, and every queue is the
    queue of some pair. *)
Theorem TypesToIndex_bijective (UC TC ph cl : nat) :
  ph < UC -> cl < TC ->
  TypesToIndex TC ph cl < UC * TC /\
  (forall ph' cl', ph' < UC -> cl' < TC ->
     TypesToIndex TC ph' cl' = TypesToIndex TC ph cl -> ph' = ph /\ cl' = cl) /\
  (forall i, i < UC * TC -> exists ph' cl', ph' < UC /\ cl' < TC /\ TypesToIndex TC ph' cl' = i).
Proof.
  unfold TypesToIndex. intros Hph Hcl. split; [nia|split].
  - intros ph' cl' Hph' Hcl' Heq.
    assert (ph' = ph) as ->.
    { destruct (Nat.lt_trichotomy ph' ph) as [H|[H|H]]; [nia|exact H|nia]. }
    split; [reflexivity|lia].
  - intros i Hi. exists (i / TC), (i mod TC). split; [|split].
    + apply Nat.Div0.div_lt_upper_bound. lia.
    + apply Nat.mod_upper_bound. lia.
    + rewrite Nat.mul_comm. symmetry. apply Nat.div_mod. lia.
Qed.

Lemma TypesToIndex_bijective_witness :
  1 < 2 /\ 2 < 3 /\ TypesToIndex 3 1 2 < 2 * 3.
Proof.
  split; [lia|split; [lia|]].
  exact (proj1 (TypesToIndex_bijective 2 3 1 2 ltac:(lia) ltac:(lia))).
Defined.

(** X2: [CoroManager::Release] cannot be called twice on one id: after a
    successful release the entry is either marked released or erased, and
    a second release fails its assertion. *)
Theorem release_twice_fails (id : N) (w w' : World) :
  Release id w = Ok w' -> Release id w' = Err AssertFail.
Proof.
  unfold Release. destruct (mCoroutines w !! id) as [e|] eqn:He; [|discriminate].
  unfold assert_. destruct (released e); bind_simpl; [discriminate|].
  destruct (running e).
  - intros H; inversion H; subst. simpl. rewrite lookup_insert_eq. reflexivity.
  - destruct (DestroyCoro (coro e) w) as [w1|] eqn:Hd; bind_simpl; [|discriminate].
    intros H; inversion H; subst. simpl. rewrite lookup_delete_eq. reflexivity.
Qed.

Lemma release_twice_fails_witness :
  Release 1 (started one_wait_body sched0) = Ok (released_once (started one_wait_body sched0)) /\
  Release 1 (released_once (started one_wait_body sched0)) = Err AssertFail.
Proof.
  split; [vm_compute; reflexivity|].
  apply (release_twice_fails 1 (started one_wait_body sched0)). vm_compute. reflexivity.
Defined.

(** X3: [CoroManager::Stop] is idempotent: once it has succeeded, a second
    [Stop] of the same id succeeds and changes nothing, and [IsDown]
    reports the coroutine as down. *)
Theorem stop_idempotent (id : N) (w w' : World) :
  Stop id w = Ok w' -> Stop id w' = Ok w' /\ IsDown id w' = Ok true.
Proof.
  unfold Stop, IsDown. destruct (mCoroutines w !! id) as [e|] eqn:He; [|discriminate].
  unfold assert_. destruct (released e) eqn:Hr; bind_simpl; [discriminate|].
  destruct (running e) eqn:Hrun.
  - destruct (DestroyCoro (coro e) _) as [w1|] eqn:Hd; bind_simpl; [|discriminate].
    intros H; inversion H; subst. simpl. rewrite lookup_insert_eq. simpl. auto.
  - intros H; inversion H; subst. rewrite He, Hr, Hrun. simpl. auto.
Qed.

Lemma stop_idempotent_witness :
  Stop 1 (stopped (started one_wait_body sched0)) = Ok (stopped (started one_wait_body sched0)) /\
  IsDown 1 (stopped (started one_wait_body sched0)) = Ok true.
Proof.
  apply (stop_idempotent 1 (started one_wait_body sched0)). vm_compute. reflexivity.
Defined.



(** X5: a root whose body reaches [co_return] (or an escaping exception)
    without suspending completes inside [Start], yet its handle is not
    down: for a new id, [IsDown] answers [false], the id waits in
    [mNewFinishedCoro] and its frame is [done()]. *)
Theorem start_sync_not_down (TC : nat) (p : Prog) (w w' : World) (id : N) :
  mCoroutines w !! mNextId w = None -> suspends p = false -> Start TC p w = Ok (id, w') ->
  IsDown id w' = Ok false /\ mNewFinishedCoro w' = id /\
  exists e fr, mCoroutines w' !! id = Some e /\ coro e = Some fr /\ fr_done fr = true.
Proof.
  intros Hn Hs H. destruct (Start_facts TC p w w' id H) as (_ & _ & _ & (e & He & Hf) & w1 & Hr).
  destruct (run_sync TC id p w1 w' Hs Hr) as [Hslot Hdone].
  split; [|split; [exact Hslot|exact Hdone]].
  unfold IsDown. rewrite He. rewrite Hn in Hf. unfold flags in Hf. simpl in Hf.
  injection Hf as _ Hrun _. rewrite Hrun. reflexivity.
Qed.

Lemma start_sync_not_down_witness :
  IsDown 1 (started (Ret 7) sched0) = Ok false /\ mNewFinishedCoro (started (Ret 7) sched0) = 1%N.
Proof.
  destruct (start_sync_not_down 1 (Ret 7) sched0 (started (Ret 7) sched0) 1
              ltac:(vm_compute; reflexivity) ltac:(reflexivity) ltac:(vm_compute; reflexivity))
    as (H1 & H2 & _).
  split; assumption.
Defined.

(** X6: an [Update] whose queue holds no zero-deadline wait and no
    deadline at or before the current time resumes nothing: it only
    stores the time snapshot in the queue. *)
Theorem update_nothing_due (TC fuel ph cl : nat) (w : World) (q : TimeQueue N) :
  mExecuteQueues w !! TypesToIndex TC ph cl = Some q -> tq_next q = [] ->
  Forall (fun e => (mClock w cl < e.1.1)%Z) (tq_timed q) ->
  Update TC (S fuel) ph cl w =
    Ok (set_queue (TypesToIndex TC ph cl) (SetupUpdate (mClock w cl) q) w).
Proof.
  intros Hq Hn Hall. unfold Update. unfold GetQueue at 1. rewrite Hq. bind_simpl.
  unfold GetQueue, set_queue, set_queues. simpl.
  rewrite list_lookup_insert_eq by (apply lookup_lt_Some with q; exact Hq). bind_simpl.
  assert (CheckUpdate (SetupUpdate (GetCurrentTime cl w) q) = false) as ->; [|reflexivity].
  unfold CheckUpdate, SetupUpdate, merge_next. simpl. rewrite Hn. simpl.
  destruct (tq_timed q) as [|[[t c] v] l]; [reflexivity|].
  inversion Hall as [|? ? Ht _]; subst. simpl in Ht.
  unfold GetCurrentTime. apply Z.leb_gt. exact Ht.
Qed.

Lemma update_nothing_due_witness :
  Update 1 1 0 0 (started (WaitP 3 0 0 (Ret 0)) sched0) =
    Ok (set_queue 0 (SetupUpdate 5 (mkTimeQueue [(8%Z, 0, 1%N)] [] 0 1))
                  (started (WaitP 3 0 0 (Ret 0)) sched0)).
Proof.
  apply (update_nothing_due 1 0 0 0 (started (WaitP 3 0 0 (Ret 0)) sched0)).
  - vm_compute. reflexivity.
  - reflexivity.
  - constructor; [vm_compute; reflexivity|constructor].
Defined.

(** X9: once the scheduler is destroyed ([~SchedulerBP]) no root entry
    and no wait is left, and every handle sees the expired live signal:
    [IsDown] is [true], [Stop] and the handle's destructor do nothing,
    [TakeResult] returns an empty result. *)
Theorem destroyed_scheduler_handles (w w' : World) :
  DestroyScheduler w = Ok w' ->
  mCoroutines w' = ∅ /\ total_size w' = 0 /\
  forall h, Handle_IsDown h w' = Ok true /\ Handle_Stop h w' = Ok w' /\
            Handle_TakeResult h w' = Ok (TEmpty, w') /\ Handle_Drop h w' = Ok w'.
Proof.
  unfold DestroyScheduler.
  destruct (foldr _ _ _) as [w1|]; bind_simpl; [|discriminate].
  intros H; injection H as <-. simpl. split; [reflexivity|]. split.
  - unfold total_size. simpl. induction (mExecuteQueues w1) as [|q qs IH]; [reflexivity|].
    simpl. rewrite IH. reflexivity.
  - intros h. unfold Handle_IsDown, Handle_Stop, Handle_TakeResult, Handle_Drop, expired. simpl.
    rewrite andb_false_r. simpl. rewrite andb_false_r. auto.
Qed.

Lemma destroyed_scheduler_handles_witness :
  total_size (started one_wait_body sched0) = 1 /\
  total_size (destroyed (started one_wait_body sched0)) = 0 /\
  Handle_IsDown (mkHandle 1 true true) (destroyed (started one_wait_body sched0)) = Ok true.
Proof.
  split; [vm_compute; reflexivity|].
  destruct (destroyed_scheduler_handles (started one_wait_body sched0)
              (destroyed (started one_wait_body sched0)) ltac:(vm_compute; reflexivity))
    as (_ & Hs & Hh).
  split; [exact Hs|]. exact (proj1 (Hh (mkHandle 1 true true))).
Defined.

(** X10: dropping the live handle of a root that is already down (its
    frame owns no awaiter) erases its entry: [Release] finds it not
    running, and a later [IsDown] of that id fails its assertion. *)
Theorem drop_finished_erases (h : Handle) (w : World) (e : Entry) :
  hId h <> 0%N -> hMgr h = true -> hLive h = true -> mAlive w = true ->
  mCoroutines w !! hId h = Some e -> running e = false -> released e = false ->
  (forall fr, coro e = Some fr -> fr_susp fr = SNone) ->
  Handle_Drop h w = Ok (set_entries (delete (hId h) (mCoroutines w)) w) /\
  IsDown (hId h) (set_entries (delete (hId h) (mCoroutines w)) w) = Err AssertFail.
Proof.
  intros Hid Hm Hl Ha He Hr Hrel Hs. split.
  - unfold Handle_Drop, expired. rewrite Hl, Ha, Hm. simpl.
    destruct (N.eqb_spec (hId h) 0) as [|_]; [contradiction|]. simpl.
    unfold Release. rewrite He, Hrel, Hr. bind_simpl.
    rewrite DestroyCoro_done by exact Hs. reflexivity.
  - unfold IsDown. simpl. rewrite lookup_delete_eq. reflexivity.
Qed.

Lemma drop_finished_erases_witness :
  Handle_Drop (mkHandle 1 true true) (updated (started one_wait_body sched0)) =
    Ok (set_entries (delete 1%N (mCoroutines (updated (started one_wait_body sched0))))
                    (updated (started one_wait_body sched0))).
Proof.
  apply (drop_finished_erases (mkHandle 1 true true) (updated (started one_wait_body sched0))
           (entry_of 1 (updated (started one_wait_body sched0)))).
  - discriminate.
  - reflexivity.
  - reflexivity.
  - vm_compute. reflexivity.
  - vm_compute. reflexivity.
  - vm_compute. reflexivity.
  - vm_compute. reflexivity.
  - intros fr Hfr. vm_compute in Hfr. injection Hfr as <-. reflexivity.
Defined.

(** X11: [SchedulerBP::AddWait] files the wait in queue
    [TypesToIndex(updateType, timeType)] under a fresh iterator that the
    queue holds, at deadline 0 for a zero delay and at the current time
    plus the delay otherwise; the queues hold one more wait and the roots
    are untouched. *)
Theorem AddWait_pending (TC : nat) (id : N) (d : Z) (ph cl : nat) (w w' : World) (r : WaitRec) :
  AddWait TC id d ph cl w = Ok (r, w') ->
  wr_key r = TypesToIndex TC ph cl /\ wait_pending (mExecuteQueues w') r = true /\
  total_size w' = S (total_size w) /\ mCoroutines w' = mCoroutines w /\
  exists c, wr_iter r = Some c /\
    trace w' = trace w ++ [EvAdd (TypesToIndex TC ph cl) c
                             (if Z.eqb d 0 then 0%Z else (GetCurrentTime cl w + d)%Z) id].
Proof.
  unfold AddWait, GetQueue.
  destruct (mExecuteQueues w !! TypesToIndex TC ph cl) as [q|] eqn:Hq; bind_simpl; [|discriminate].
  set (t := if Z.eqb d 0 then 0%Z else (GetCurrentTime cl w + d)%Z).
  pose proof (AddTimed_cursor t id q) as [Hc Hin].
  pose proof (Size_AddTimed t id q) as Hs.
  destruct (AddTimed t id q) as [c q'] eqn:Ha. simpl in Hc, Hin, Hs. subst c.
  intros H; injection H as <- <-.
  split; [reflexivity|]. split; [|split; [|split; [reflexivity|eexists; split; reflexivity]]].
  - unfold wait_pending. simpl.
    rewrite list_lookup_insert_eq by (apply lookup_lt_Some with q; exact Hq).
    apply bool_decide_eq_true_2, list_elem_of_In. exact Hin.
  - pose proof (total_size_set_queue _ q' q w Hq) as Ht.
    change (total_size (set_queue (TypesToIndex TC ph cl) q' w) = S (total_size w)). lia.
Qed.

Lemma AddWait_pending_witness :
  exists r w', AddWait 1 1 3 0 0 sched0 = Ok (r, w') /\ total_size w' = 1.
Proof.
  destruct (AddWait 1 1 3 0 0 sched0) as [[r w']|f] eqn:Ha; [|vm_compute in Ha; discriminate].
  exists r, w'. split; [reflexivity|].
  destruct (AddWait_pending 1 1 3 0 0 sched0 w' r Ha) as (_ & _ & Hs & _). exact Hs.
Defined.

(** X12: destroying the wait record that [AddWait] returned
    ([~WaitBP], through [RemoveWait] with the stored iterator) takes out
    exactly the entry it added: the queues are back as before, apart from
    the cursor counter of that queue, when every cursor the queue holds is
    below its counter. *)
Theorem AddWait_DestroyWait (TC : nat) (id : N) (d : Z) (ph cl : nat) (w w1 : World)
    (r : WaitRec) (q : TimeQueue N) :
  mExecuteQueues w !! TypesToIndex TC ph cl = Some q ->
  Forall (fun c => c < tq_seq q) (cursors q) ->
  AddWait TC id d ph cl w = Ok (r, w1) ->
  exists w2, DestroyWait r w1 = Ok w2 /\
    mExecuteQueues w2 = <[TypesToIndex TC ph cl :=
                            mkTimeQueue (tq_timed q) (tq_next q) (tq_now q) (S (tq_seq q))]>
                          (mExecuteQueues w) /\
    mCoroutines w2 = mCoroutines w.
Proof.
  intros Hq Hc. unfold AddWait, GetQueue. rewrite Hq. bind_simpl.
  set (t := if Z.eqb d 0 then 0%Z else (GetCurrentTime cl w + d)%Z).
  pose proof (Remove_AddTimed t id q Hc) as Hr.
  destruct (AddTimed t id q) as [c q'] eqn:Ha. simpl in Hr.
  intros H; injection H as <- <-.
  unfold DestroyWait, GetQueue. simpl.
  rewrite list_lookup_insert_eq by (apply lookup_lt_Some with q; exact Hq). bind_simpl.
  eexists. split; [reflexivity|]. simpl. split; [|reflexivity].
  rewrite Hr. apply list_insert_insert_eq.
Qed.

Lemma AddWait_DestroyWait_witness :
  exists r w1 w2, AddWait 1 1 3 0 0 sched0 = Ok (r, w1) /\ DestroyWait r w1 = Ok w2 /\
    mExecuteQueues w2 = [mkTimeQueue [] [] 0 1].
Proof.
  destruct (AddWait 1 1 3 0 0 sched0) as [[r w1]|f] eqn:Ha; [|vm_compute in Ha; discriminate].
  destruct (AddWait_DestroyWait 1 1 3 0 0 sched0 w1 r TQ.empty
              ltac:(reflexivity) ltac:(constructor) Ha) as (w2 & H1 & H2 & _).
  exists r, w1, w2. split; [reflexivity|]. split; [exact H1|]. rewrite H2. reflexivity.
Defined.

End Extras.
